(** * plaincloud logging core: sink drivers, emission and the stream sink

    A shallow embedding of the logging core of the repository:
    - the severity enumeration of [include/log/logger.h];
    - the sink bookkeeping and the emission loop of the first driver,
      [PlainCloud::Log::SinkDriver<Logger, SingleThreadedPolicy>] ([sink.h]);
    - the emission loop of the second driver, [SlimLog::SinkDriver::message]
      ([slimlog/sink.h]), with its effective-sink table;
    - the stream sink [OStreamSink] of [include/log/sinks/ostream_sink.h].

    Hash maps keyed by pointers become [gmap]s keyed by addresses; a loop
    over a hash map is a recursion over the sequence of entries the
    iteration visits, so that every statement holds for whatever order the
    table yields. *)

From stdpp Require Import gmap list.
From Stdlib Require Import Ascii.

Set Default Proof Using "Type".

(** ** Data shared by both drivers *)

(** [enum class Level { Fatal, Error, Warning, Info, Debug, Trace }]. *)
Inductive Level := Fatal | Error | Warning | Info | Debug | Trace.

#[global] Instance Level_eq_dec : EqDecision Level.
Proof. solve_decision. Defined.

(** The value of an enumerator: its position in the declaration. The
    relational operators of a scoped enumeration compare these values. *)
Definition level_value (l : Level) : nat :=
  match l with
  | Fatal => 0 | Error => 1 | Warning => 2 | Info => 3 | Debug => 4 | Trace => 5
  end.

Definition Level_lt (a b : Level) : bool := bool_decide (level_value a < level_value b).
Definition Level_ge (a b : Level) : bool := bool_decide (level_value b ≤ level_value a).

(** The order of the specification, written from its words: severities
    listed from the most critical to the most verbose. [l] is at least as
    critical as [t] when it does not come later than [t] in that list. *)
Definition criticality_order : list Level := [Fatal; Error; Warning; Info; Debug; Trace].

Fixpoint position_in (l : Level) (order : list Level) : nat :=
  match order with
  | [] => 0
  | l' :: rest => if bool_decide (l' = l) then 0 else S (position_in l rest)
  end.

Definition at_least_as_critical (l t : Level) : Prop :=
  position_in l criticality_order ≤ position_in t criticality_order.

#[global] Instance at_least_as_critical_dec (l t : Level) :
  Decision (at_least_as_critical l t).
Proof. unfold at_least_as_critical. apply _. Defined.

(** Characters, buffers and strings. [FormatBuffer<CharType>] and
    [StringType] are sequences of characters; a sink or a logger is known
    by its address. *)
Abbreviation CharType := ascii.
Abbreviation Buffer := (list ascii).
Abbreviation StringType := (list ascii).
Abbreviation SinkPtr := nat.
Abbreviation LoggerPtr := nat.

(** [Location]: file, function and line of the caller. *)
Record Location := { file_name : StringType; function_name : StringType; line : nat }.

#[global] Instance Location_eq_dec : EqDecision Location.
Proof. solve_decision. Defined.

(** [std::unordered_map::emplace(key, flag)] on a table of flags: the entry
    is inserted only when the key is absent; a present entry is kept. *)
Definition emplace (key : nat) (flag : bool) (table : gmap nat bool) : gmap nat bool :=
  match table !! key with
  | Some _ => table
  | None => <[key := flag]> table
  end.

(** ** The first driver: [PlainCloud::Log::SinkDriver<Logger, SingleThreadedPolicy>] *)
Module PlainCloud.

(** [std::unordered_map<std::shared_ptr<Sink<Logger>>, bool> m_sinks].
    Every operation returns its result together with the table it leaves. *)

(** [add_sink]: [m_sinks.insert_or_assign(sink, true).second]. The second
    component of [insert_or_assign] tells whether the key was inserted
    (it was absent); the value is assigned either way. *)
Definition add_sink (sink : SinkPtr) (m_sinks : gmap nat bool) : bool * gmap nat bool :=
  (bool_decide (m_sinks !! sink = None), <[sink := true]> m_sinks).

(** [remove_sink]: [m_sinks.erase(sink) == 1]. *)
Definition remove_sink (sink : SinkPtr) (m_sinks : gmap nat bool) : bool * gmap nat bool :=
  (bool_decide (is_Some (m_sinks !! sink)), delete sink m_sinks).

(** [set_sink_enabled]: look the sink up; when found assign the flag and
    return [true], otherwise return [false]. *)
Definition set_sink_enabled (sink : SinkPtr) (enabled : bool) (m_sinks : gmap nat bool)
  : bool * gmap nat bool :=
  match m_sinks !! sink with
  | Some _ => (true, <[sink := enabled]> m_sinks)
  | None => (false, m_sinks)
  end.

(** [sink_enabled]: the stored flag, [false] for an unknown sink. *)
Definition sink_enabled (sink : SinkPtr) (m_sinks : gmap nat bool) : bool :=
  match m_sinks !! sink with
  | Some enabled => enabled
  | None => false
  end.

(** *** Emission

    [message(buffer, logger, level, callback, location, args...)]. The call
    is observed through the events it causes, in order: the callback being
    invoked, a sink being handed the buffer, the buffer being reset. *)
Inductive Event :=
| Invoked
| SinkMessage (sink : SinkPtr) (buffer : Buffer) (level : Level)
    (category : StringType) (message : option StringType) (location : Location)
| BufferReset.

#[global] Instance Event_eq_dec : EqDecision Event.
Proof. solve_decision. Defined.

(** The shapes of [callback] that the [if constexpr] chain tells apart. The
    extra arguments [args...] are only ever forwarded to the callback, so
    they are part of the function; [U] is whatever state the callable
    captures (a call counter, say). *)
Inductive Callback (U : Type) :=
| BufferWriter (f : U → Buffer → U * Buffer)
| VoidCallable (f : U → U)
| ValueCallable (f : U → U * StringType)
| PlainMessage (message : StringType).
Arguments BufferWriter {U} f.
Arguments VoidCallable {U} f.
Arguments ValueCallable {U} f.
Arguments PlainMessage {U} message.

(** The state a call works on. *)
Record World (U : Type) := MkWorld { user : U; buffer : Buffer; trace : list Event }.
Arguments MkWorld {U} user buffer trace.
Arguments user {U} w.
Arguments buffer {U} w.
Arguments trace {U} w.

Section Emission.
Context {U : Type}.
(** [Sink::message] is pure virtual and takes the buffer by reference:
    [sink_leaves sink b] is the buffer as that sink hands it back. *)
Variable sink_leaves : SinkPtr → Buffer → Buffer.

(** [sink.first->message(buffer, level, logger.category(), [message,] location)] *)
Definition sink_message (sink : SinkPtr) (level : Level) (category : StringType)
    (message : option StringType) (location : Location) (w : World U) : World U :=
  MkWorld (user w) (sink_leaves sink (buffer w))
    (trace w ++ [SinkMessage sink (buffer w) level category message location]).

(** The body of [if (sink.second) { ... }]: the callback is run for this
    sink, the sink is called, and the buffer is emptied by
    [buffer.str(std::basic_string<CharType>{})]. *)
Definition serve (sink : SinkPtr) (level : Level) (category : StringType)
    (callback : Callback U) (location : Location) (w : World U) : World U :=
  let served :=
    match callback with
    | BufferWriter f =>
        let '(u, b) := f (user w) (buffer w) in
        sink_message sink level category None location
          (MkWorld u b (trace w ++ [Invoked]))
    | VoidCallable f =>
        sink_message sink level category None location
          (MkWorld (f (user w)) (buffer w) (trace w ++ [Invoked]))
    | ValueCallable f =>
        let '(u, text) := f (user w) in
        sink_message sink level category (Some text) location
          (MkWorld u (buffer w) (trace w ++ [Invoked]))
    | PlainMessage text =>
        sink_message sink level category (Some text) location w
    end in
  MkWorld (user served) [] (trace served ++ [BufferReset]).

(** [for (const auto& sink : m_sinks) { if (sink.second) { ... } }] over
    the entries in the order the table yields them. *)
Fixpoint message_loop (entries : list (SinkPtr * bool)) (level : Level)
    (category : StringType) (callback : Callback U) (location : Location)
    (w : World U) : World U :=
  match entries with
  | [] => w
  | (sink, enabled) :: rest =>
      message_loop rest level category callback location
        (if enabled then serve sink level category callback location w else w)
  end.

(** The whole call: [if (static_cast<Level>(logger.m_level) < level) return;]
    and then the loop. [m_level] and [category] are read from [logger]. *)
Definition message_over (entries : list (SinkPtr * bool)) (m_level : Level)
    (category : StringType) (level : Level) (callback : Callback U)
    (location : Location) (w : World U) : World U :=
  if Level_lt m_level level then w
  else message_loop entries level category callback location w.

Definition message (m_sinks : gmap nat bool) (m_level : Level)
    (category : StringType) (level : Level) (callback : Callback U)
    (location : Location) (w : World U) : World U :=
  message_over (map_to_list m_sinks) m_level category level callback location w.

End Emission.

(** *** Reading a trace *)

(** Whether the callback is something that is called at all. *)
Definition is_callable {U : Type} (callback : Callback U) : bool :=
  match callback with
  | PlainMessage _ => false
  | _ => true
  end.

(** How often the callback was invoked, how often the buffer was reset,
    and which sinks were called, in order. *)
Definition invocations (events : list Event) : nat :=
  length (filter (λ e, e = Invoked) events).

Definition resets (events : list Event) : nat :=
  length (filter (λ e, e = BufferReset) events).

Definition sinks_called (events : list Event) : list SinkPtr :=
  omap (λ e, match e with SinkMessage sink _ _ _ _ _ => Some sink | _ => None end) events.

(** The buffers the sinks were handed, in order. *)
Definition buffers_handed (events : list Event) : list Buffer :=
  omap (λ e, match e with SinkMessage _ handed _ _ _ _ => Some handed | _ => None end) events.

(** The buffer as the callback leaves it when it runs in state [u] on the
    buffer [b]: only the callback that takes the buffer writes to it. *)
Definition produced {U : Type} (callback : Callback U) (u : U) (b : Buffer) : Buffer :=
  match callback with
  | BufferWriter f => (f u b).2
  | _ => b
  end.

(** Reading a trace from the left: [Idle] between sinks, [Served] right
    after a sink was called, [Unreset] once something other than a reset of
    the buffer followed a sink call. *)
Inductive Phase := Idle | Served | Unreset.

Definition phase_step (phase : Phase) (e : Event) : Phase :=
  match phase, e with
  | Idle, SinkMessage _ _ _ _ _ _ => Served
  | Idle, _ => Idle
  | Served, BufferReset => Idle
  | Served, _ => Unreset
  | Unreset, _ => Unreset
  end.

(** Every call of a sink is immediately followed by a reset of the buffer. *)
Definition reset_after_each_sink (events : list Event) : Prop :=
  foldl phase_step Idle events = Idle.

(** The enabled entries of the table, in iteration order. *)
Definition enabled_sinks (entries : list (SinkPtr * bool)) : list SinkPtr :=
  fst <$> filter (λ entry, entry.2 = true) entries.

(** *** Construction, created sinks and successive calls *)

(** [SinkDriver(sinks)]: [for (sink : sinks) m_sinks.emplace(sink, true)]
    on an empty table ([reserve] changes no entry). *)
Definition SinkDriver (sinks : list SinkPtr) : gmap nat bool :=
  foldl (λ table sink, emplace sink true table) ∅ sinks.

(** [add_sink<T>(args...)]:
    [m_sinks.insert_or_assign(std::make_shared<T>(args...), true).first->first].
    [created] is the address [make_shared] returns; the result is the key
    of the entry, that same address. *)
Definition add_sink_created (created : SinkPtr) (m_sinks : gmap nat bool)
  : SinkPtr * gmap nat bool :=
  (created, <[created := true]> m_sinks).

(** The messages the sinks were handed, in order ([None] for the overload
    of [Sink::message] without a message). *)
Definition texts_handed (events : list Event) : list (option StringType) :=
  omap (λ e, match e with SinkMessage _ _ _ _ text _ => Some text | _ => None end) events.

End PlainCloud.

(** ** [class Logger] of [logger.h]: emission without a driver *)
Module Logger.

Inductive Event :=
| Invoked
| SinkEmit (sink : SinkPtr) (level : Level) (message : StringType) (location : Location).

Section Emit.
Context {U : Type}.

(** [emit(level, callback, location, args...)]:
    [for (sink : m_sinks) if (m_level >= level) sink.first->emit(level, callback(args...), location)].
    The flag stored with a sink is not read here. *)
Fixpoint emit_loop (entries : list (SinkPtr * bool)) (m_level level : Level)
    (callback : U → U * StringType) (location : Location)
    (w : U * list Event) : U * list Event :=
  match entries with
  | [] => w
  | (sink, _) :: rest =>
      emit_loop rest m_level level callback location
        (if Level_ge m_level level
         then let '(u, text) := callback w.1 in
              (u, w.2 ++ [Invoked; SinkEmit sink level text location])
         else w)
  end.

Definition emit (m_sinks : gmap nat bool) (m_level level : Level)
    (callback : U → U * StringType) (location : Location)
    (w : U * list Event) : U * list Event :=
  emit_loop (map_to_list m_sinks) m_level level callback location w.

End Emit.

#[global] Instance Event_eq_dec : EqDecision Event.
Proof. solve_decision. Defined.

Definition invocations (events : list Event) : nat :=
  length (filter (λ e, e = Invoked) events).

Definition sinks_called (events : list Event) : list SinkPtr :=
  omap (λ e, match e with SinkEmit sink _ _ _ => Some sink | _ => None end) events.

(** *** The table of a [Logger] *)

(** [Logger(name, level, sinks)]: [for (sink : sinks) m_sinks.emplace(sink, true)]. *)
Definition construct (sinks : list SinkPtr) : gmap nat bool :=
  foldl (λ table sink, emplace sink true table) ∅ sinks.

(** [add_sink]: [m_sinks.insert_or_assign(sink, false).second]. *)
Definition add_sink (sink : SinkPtr) (m_sinks : gmap nat bool) : bool * gmap nat bool :=
  (bool_decide (m_sinks !! sink = None), <[sink := false]> m_sinks).

(** [remove_sink]: [m_sinks.erase(sink) == 1]. *)
Definition remove_sink (sink : SinkPtr) (m_sinks : gmap nat bool) : bool * gmap nat bool :=
  (bool_decide (is_Some (m_sinks !! sink)), delete sink m_sinks).

(** [emit(level, message, location)] for a [message] that is not
    invocable: the callback is the lambda that returns its argument, and
    the message is the one extra argument forwarded to it. *)
Definition emit_message {U : Type} (m_sinks : gmap nat bool) (m_level level : Level)
    (message : StringType) (location : Location) (w : U * list Event) : U * list Event :=
  emit m_sinks m_level level (λ u, (u, message)) location w.

(** [info(message, caller)]: [emit(Log::Level::Info, message, caller)]. *)
Definition info {U : Type} (m_sinks : gmap nat bool) (m_level : Level)
    (message : StringType) (caller : Location) (w : U * list Event) : U * list Event :=
  emit_message m_sinks m_level Info message caller w.

(** The messages the sinks were handed, in order. *)
Definition texts_emitted (events : list Event) : list StringType :=
  omap (λ e, match e with SinkEmit _ _ text _ => Some text | _ => None end) events.

End Logger.

(** ** The second driver: [SlimLog::SinkDriver] *)
Module SlimLog.

(** Modelled from the spec: [Logger::level_enabled] ([slimlog/logger.h] is
    not part of the tree). A node's threshold is the most verbose level it
    admits; a call at level [level] is admitted iff [level] is at least as
    critical as the threshold. *)
Definition level_enabled (threshold level : Level) : bool :=
  bool_decide (at_least_as_critical level threshold).

(** [RecordType]: what a sink is handed. The fields are those the driver
    fills in: level, location, category, thread id, time and message. *)
Record LogRecord := MkRecord {
  r_level : Level;
  r_location : Location;
  r_category : StringType;
  r_thread_id : nat;
  r_time : nat * nat;
  r_message : StringType
}.

Definition with_message (record : LogRecord) (text : StringType) : LogRecord :=
  MkRecord (r_level record) (r_location record) (r_category record)
    (r_thread_id record) (r_time record) text.

Inductive Event :=
| Invoked
| SinkMessage (sink : SinkPtr) (record : LogRecord).

#[global] Instance LogRecord_eq_dec : EqDecision LogRecord.
Proof. solve_decision. Defined.

#[global] Instance Event_eq_dec : EqDecision Event.
Proof. solve_decision. Defined.

(** The same shapes of callback as in the first driver. *)
Inductive Callback (U : Type) :=
| BufferWriter (f : U → Buffer → U * Buffer)
| VoidCallable (f : U → U)
| ValueCallable (f : U → U * StringType)
| PlainMessage (message : StringType).
Arguments BufferWriter {U} f.
Arguments VoidCallable {U} f.
Arguments ValueCallable {U} f.
Arguments PlainMessage {U} message.

(** The locals of [message] ([buffer], [record], the captured state of the
    callback) and the events so far. *)
Record World (U : Type) := MkWorld {
  user : U;
  buffer : Buffer;
  record : LogRecord;
  trace : list Event
}.
Arguments MkWorld {U} user buffer record trace.
Arguments user {U} w.
Arguments buffer {U} w.
Arguments record {U} w.
Arguments trace {U} w.

Section Emission.
Context {U : Type}.
(** [threshold logger]: the level stored in the logger at that address,
    read through the [const Logger*] of an effective-sink entry. *)
Variable threshold : LoggerPtr → Level.

(** [sink->message(record)] *)
Definition sink_message (sink : SinkPtr) (w : World U) : World U :=
  MkWorld (user w) (buffer w) (record w) (trace w ++ [SinkMessage sink (record w)]).

(** The block under [if (!evaluated)]. The boolean tells whether the
    block ends in [break] (the void callable) or falls through to
    [sink->message(record)]. *)
Definition evaluate (callback : Callback U) (w : World U) : World U * bool :=
  match callback with
  | BufferWriter f =>
      let '(u, b) := f (user w) (buffer w) in
      (MkWorld u b (with_message (record w) b) (trace w ++ [Invoked]), false)
  | VoidCallable f =>
      (MkWorld (f (user w)) (buffer w) (record w) (trace w ++ [Invoked]), true)
  | ValueCallable f =>
      let '(u, text) := f (user w) in
      (MkWorld u (buffer w) (with_message (record w) text) (trace w ++ [Invoked]), false)
  | PlainMessage text =>
      (MkWorld (user w) (buffer w) (with_message (record w) text) (trace w), false)
  end.

(** [for (const auto& [sink, logger] : m_effective_sinks) { ... }] with the
    flag [evaluated]. *)
Fixpoint message_loop (entries : list (SinkPtr * LoggerPtr)) (level : Level)
    (callback : Callback U) (evaluated : bool) (w : World U) : World U :=
  match entries with
  | [] => w
  | (sink, logger) :: rest =>
      if negb (level_enabled (threshold logger) level)
      then message_loop rest level callback evaluated w
      else if negb evaluated
      then let '(w', stop) := evaluate callback w in
           if stop then w'
           else message_loop rest level callback true (sink_message sink w')
      else message_loop rest level callback true (sink_message sink w)
  end.

(** The state in which the loop starts: an empty buffer and the record
    built from the arguments, the thread id and the clock. *)
Definition initial (level : Level) (category : StringType) (location : Location)
    (thread_id : nat) (now : nat * nat) (u : U) : World U :=
  MkWorld u [] (MkRecord level location category thread_id now []) [].

Definition message_over (entries : list (SinkPtr * LoggerPtr)) (level : Level)
    (callback : Callback U) (category : StringType) (location : Location)
    (thread_id : nat) (now : nat * nat) (u : U) : World U :=
  message_loop entries level callback false
    (initial level category location thread_id now u).

Definition message (m_effective_sinks : gmap nat nat) (level : Level)
    (callback : Callback U) (category : StringType) (location : Location)
    (thread_id : nat) (now : nat * nat) (u : U) : World U :=
  message_over (map_to_list m_effective_sinks) level callback category location
    thread_id now u.

(** The entries whose owner admits [level], in iteration order. *)
Definition admissible (entries : list (SinkPtr * LoggerPtr)) (level : Level)
  : list (SinkPtr * LoggerPtr) :=
  filter (λ entry, level_enabled (threshold entry.2) level = true) entries.

End Emission.

(** *** Reading a trace *)

Definition is_callable {U : Type} (callback : Callback U) : bool :=
  match callback with
  | PlainMessage _ => false
  | _ => true
  end.

(** The void callable that does not take the buffer. *)
Definition is_void {U : Type} (callback : Callback U) : bool :=
  match callback with
  | VoidCallable _ => true
  | _ => false
  end.

Definition invocations (events : list Event) : nat :=
  length (filter (λ e, e = Invoked) events).

(** The sinks called, each with the record it was handed, in order. *)
Definition sink_calls (events : list Event) : list (SinkPtr * LogRecord) :=
  omap (λ e, match e with SinkMessage sink record => Some (sink, record) | Invoked => None end)
    events.

End SlimLog.

(** ** The tree of drivers and its cached effective sinks *)
Module SinkTree.

(** [sink.h] declares the members of a driver ([m_logger], [m_parent],
    [m_children], [m_effective_sinks], [m_sinks]) and the operations on
    them; their bodies ([sink-inl.h]) are not part of the tree. A node
    holds its children, so that [m_parent] of a child is the node that
    holds it and the parent's table is at hand wherever a child is
    reached. *)
Inductive Node := MkNode {
  m_logger : LoggerPtr;
  m_sinks : gmap nat bool;
  m_effective_sinks : gmap nat nat;
  m_children : list Node
}.

(** Modelled from the spec: the recomputation of [update_effective_sinks]
    (its body is in [sink-inl.h], which is missing). Take the parent's
    current effective set; overlay an entry for each of this node's own
    enabled sinks, re-mapped to this node; the local mapping wins. *)
Definition overlay_own (logger : LoggerPtr) (sinks : gmap nat bool)
    (parent_effective : gmap nat nat) : gmap nat nat :=
  map_fold (λ sink (enabled : bool) acc, if enabled then <[sink := logger]> acc else acc)
    parent_effective sinks.

(** Modelled from the spec: [update_effective_sinks] (declared in [sink.h],
    defined in the missing [sink-inl.h]). Store the recomputed set; if it
    differs from the previous one, recurse into every child with the new
    parent set. *)
Fixpoint update_effective_sinks (parent_effective : gmap nat nat) (node : Node) : Node :=
  match node with
  | MkNode logger sinks effective children =>
      let recomputed := overlay_own logger sinks parent_effective in
      if decide (recomputed = effective)
      then MkNode logger sinks recomputed children
      else MkNode logger sinks recomputed
             (map (update_effective_sinks recomputed) children)
  end.

(** A node is addressed by the positions of the children that lead to it
    from the root. [at_node path change parent node] applies [change] to
    the node at [path] below [node], handing it the effective set of its
    parent; a path that leads nowhere changes nothing. *)
Fixpoint at_node (path : list nat) (change : gmap nat nat → Node → Node)
    (parent_effective : gmap nat nat) (node : Node) : Node :=
  match path with
  | [] => change parent_effective node
  | i :: rest =>
      MkNode (m_logger node) (m_sinks node) (m_effective_sinks node)
        (alter (at_node rest change (m_effective_sinks node)) i (m_children node))
  end.

(** Modelled from the spec: the mutators of a node ([add_sink],
    [remove_sink], [set_sink_enabled] are declared in [sink.h], defined in
    the missing [sink-inl.h]). Each changes the node's own table as the
    first driver does and then recomputes the effective set. *)
Definition add_sink (sink : SinkPtr) (parent_effective : gmap nat nat) (node : Node) : Node :=
  update_effective_sinks parent_effective
    (MkNode (m_logger node) (<[sink := true]> (m_sinks node))
       (m_effective_sinks node) (m_children node)).

Definition remove_sink (sink : SinkPtr) (parent_effective : gmap nat nat) (node : Node) : Node :=
  update_effective_sinks parent_effective
    (MkNode (m_logger node) (delete sink (m_sinks node))
       (m_effective_sinks node) (m_children node)).

Definition set_sink_enabled (sink : SinkPtr) (enabled : bool)
    (parent_effective : gmap nat nat) (node : Node) : Node :=
  match m_sinks node !! sink with
  | Some _ =>
      update_effective_sinks parent_effective
        (MkNode (m_logger node) (<[sink := enabled]> (m_sinks node))
           (m_effective_sinks node) (m_children node))
  | None => node
  end.

(** Modelled from the spec: construction of a node, with its initial
    sinks (all enabled) and, through [attach], under a parent at
    construction time. *)
Definition fresh (logger : LoggerPtr) (sinks : list SinkPtr) : Node :=
  MkNode logger (list_to_map ((λ sink, (sink, true)) <$> sinks)) ∅ [].

Definition new_root (logger : LoggerPtr) (sinks : list SinkPtr) : Node :=
  update_effective_sinks ∅ (fresh logger sinks).

Definition attach (logger : LoggerPtr) (sinks : list SinkPtr)
    (parent_effective : gmap nat nat) (node : Node) : Node :=
  MkNode (m_logger node) (m_sinks node) (m_effective_sinks node)
    (m_children node ++
       [update_effective_sinks (m_effective_sinks node) (fresh logger sinks)]).

(** Modelled from the spec: destroying a node destroys its subtree; the
    parent forgets the child. *)
Definition detach (i : nat) (parent_effective : gmap nat nat) (node : Node) : Node :=
  MkNode (m_logger node) (m_sinks node) (m_effective_sinks node)
    (delete i (m_children node)).

(** The operations that build and change a tree. *)
Inductive Operation :=
| AddSink (path : list nat) (sink : SinkPtr)
| RemoveSink (path : list nat) (sink : SinkPtr)
| SetSinkEnabled (path : list nat) (sink : SinkPtr) (enabled : bool)
| Attach (path : list nat) (logger : LoggerPtr) (sinks : list SinkPtr)
| Destroy (path : list nat) (i : nat).

Definition perform (op : Operation) (root : Node) : Node :=
  match op with
  | AddSink path sink => at_node path (add_sink sink) ∅ root
  | RemoveSink path sink => at_node path (remove_sink sink) ∅ root
  | SetSinkEnabled path sink enabled => at_node path (set_sink_enabled sink enabled) ∅ root
  | Attach path logger sinks => at_node path (attach logger sinks) ∅ root
  | Destroy path i => at_node path (detach i) ∅ root
  end.

Definition run (ops : list Operation) (root : Node) : Node :=
  foldl (λ tree op, perform op tree) root ops.

(** The topology of a tree: the tree with every cache emptied. *)
Fixpoint topology (node : Node) : Node :=
  match node with
  | MkNode logger sinks _ children => MkNode logger sinks ∅ (map topology children)
  end.

(** The node's own enabled sinks, each mapped to the node itself. *)
Definition own_enabled (node : Node) : gmap nat nat :=
  (λ _ : bool, m_logger node) <$> filter (λ entry, entry.2 = true) (m_sinks node).

(** The invariant of the cache: below a parent whose effective set is
    [parent_effective], the node's effective set is its own enabled sinks
    overlaid on [parent_effective] (the union of maps keeps the left entry
    for a key present in both), and the same holds for each child below
    this node's effective set. *)
Inductive consistent : gmap nat nat → Node → Prop :=
| consistent_node parent_effective node :
    m_effective_sinks node = own_enabled node ∪ parent_effective →
    Forall (consistent (m_effective_sinks node)) (m_children node) →
    consistent parent_effective node.

End SinkTree.

(** ** The stream sink: [OStreamSink] of [log/sinks/ostream_sink.h] *)
Module OStreamSink.

(** [std::basic_ostream<CharType> m_ostream], seen through what it is
    asked to do, in order. *)
Inductive StreamOp :=
| Write (chars : list ascii)
| Flush.

(** The characters written so far. *)
Definition written (ops : list StreamOp) : list ascii :=
  concat ((λ op, match op with Write chars => chars | Flush => [] end) <$> ops).

Definition newline : ascii := ascii_of_nat 10.

Section Sink.
Context {Pattern RecordType : Type}.
(** Modelled from the spec: [Pattern::format] ([pattern.h] is not part of
    the tree). Rendering an already compiled pattern cannot fail and
    appends the rendered record to the buffer it is given. *)
Variable render : Pattern → RecordType → list ascii.

Record Sink := MkSink { m_pattern : Pattern; m_ostream : list StreamOp }.

(** [Sink::format(result, record)]: [m_pattern.format(result, record)]. *)
Definition format (sink : Sink) (result : Buffer) (record : RecordType) : Buffer :=
  result ++ render (m_pattern sink) record.

(** [buffer.resize(n)]: truncate, or pad with value-initialised characters. *)
Definition resize (n : nat) (buffer : Buffer) : Buffer :=
  take n buffer ++ replicate (n - length buffer) zero.

(** [m_ostream.write(first, count)]: [count] characters starting at [first]. *)
Definition ostream_write (first : list ascii) (count : nat) (os : list StreamOp)
  : list StreamOp :=
  os ++ [Write (take count first)].

(** [message(buffer, record)] *)
Definition message (sink : Sink) (buffer : Buffer) (record : RecordType) : Sink * Buffer :=
  let orig_size := length buffer in
  let formatted := format sink buffer record in
  let terminated := formatted ++ [newline] in
  let os := ostream_write (drop orig_size terminated)
              (length terminated - orig_size) (m_ostream sink) in
  (MkSink (m_pattern sink) os, resize orig_size terminated).

(** [flush()]: [m_ostream.flush()]. *)
Definition flush (sink : Sink) : Sink :=
  MkSink (m_pattern sink) (m_ostream sink ++ [Flush]).

End Sink.

End OStreamSink.

(** ** The first driver when a callback or a sink throws *)
Module Exceptions.

(** [message] has no [try] and no guard object: an exception thrown by
    the callback (a formatting error, say) or by [Sink::message] leaves
    [message] at once, with the rest of the loop and the pending
    [buffer.str(...)] not executed. [Threw w] is a call left that way in
    state [w]. *)
Inductive Outcome (A : Type) :=
| Returned (a : A)
| Threw (a : A).
Arguments Returned {A} a.
Arguments Threw {A} a.

Definition state_of {A : Type} (outcome : Outcome A) : A :=
  match outcome with
  | Returned a => a
  | Threw a => a
  end.

(** The shapes of callback, each of which may now throw: the boolean (or
    [None] for the callable that returns the message) tells that it threw,
    after having changed the captured state and the buffer as given. *)
Inductive Callback (U : Type) :=
| BufferWriter (f : U → Buffer → U * Buffer * bool)
| VoidCallable (f : U → U * bool)
| ValueCallable (f : U → U * option StringType)
| PlainMessage (message : StringType).
Arguments BufferWriter {U} f.
Arguments VoidCallable {U} f.
Arguments ValueCallable {U} f.
Arguments PlainMessage {U} message.

Section Emission.
Context {U : Type}.
(** [sink_does sink b]: the buffer as the sink leaves it, and whether its
    [message] returned ([true]) or threw ([false]). *)
Variable sink_does : SinkPtr → Buffer → Buffer * bool.

Definition sink_message (sink : SinkPtr) (level : Level) (category : StringType)
    (message : option StringType) (location : Location) (w : PlainCloud.World U)
  : Outcome (PlainCloud.World U) :=
  let '(after, returned) := sink_does sink (PlainCloud.buffer w) in
  let w' := PlainCloud.MkWorld (PlainCloud.user w) after
              (PlainCloud.trace w
                 ++ [PlainCloud.SinkMessage sink (PlainCloud.buffer w) level category
                       message location]) in
  if returned then Returned w' else Threw w'.

(** The body of [if (sink.second) { ... }]; the reset of the buffer is
    reached only when the callback and the sink returned. *)
Definition serve (sink : SinkPtr) (level : Level) (category : StringType)
    (callback : Callback U) (location : Location) (w : PlainCloud.World U)
  : Outcome (PlainCloud.World U) :=
  let called :=
    match callback with
    | BufferWriter f =>
        let '(u, b, returned) := f (PlainCloud.user w) (PlainCloud.buffer w) in
        let w1 := PlainCloud.MkWorld u b (PlainCloud.trace w ++ [PlainCloud.Invoked]) in
        if returned then sink_message sink level category None location w1 else Threw w1
    | VoidCallable f =>
        let '(u, returned) := f (PlainCloud.user w) in
        let w1 := PlainCloud.MkWorld u (PlainCloud.buffer w)
                    (PlainCloud.trace w ++ [PlainCloud.Invoked]) in
        if returned then sink_message sink level category None location w1 else Threw w1
    | ValueCallable f =>
        let '(u, result) := f (PlainCloud.user w) in
        let w1 := PlainCloud.MkWorld u (PlainCloud.buffer w)
                    (PlainCloud.trace w ++ [PlainCloud.Invoked]) in
        match result with
        | Some text => sink_message sink level category (Some text) location w1
        | None => Threw w1
        end
    | PlainMessage text => sink_message sink level category (Some text) location w
    end in
  match called with
  | Returned w2 =>
      Returned (PlainCloud.MkWorld (PlainCloud.user w2) []
                  (PlainCloud.trace w2 ++ [PlainCloud.BufferReset]))
  | Threw w2 => Threw w2
  end.

Fixpoint message_loop (entries : list (SinkPtr * bool)) (level : Level)
    (category : StringType) (callback : Callback U) (location : Location)
    (w : PlainCloud.World U) : Outcome (PlainCloud.World U) :=
  match entries with
  | [] => Returned w
  | (sink, enabled) :: rest =>
      if enabled
      then match serve sink level category callback location w with
           | Returned w' => message_loop rest level category callback location w'
           | Threw w' => Threw w'
           end
      else message_loop rest level category callback location w
  end.

Definition message_over (entries : list (SinkPtr * bool)) (m_level : Level)
    (category : StringType) (level : Level) (callback : Callback U)
    (location : Location) (w : PlainCloud.World U) : Outcome (PlainCloud.World U) :=
  if Level_lt m_level level then Returned w
  else message_loop entries level category callback location w.

Definition message (m_sinks : gmap nat bool) (m_level : Level)
    (category : StringType) (level : Level) (callback : Callback U)
    (location : Location) (w : PlainCloud.World U) : Outcome (PlainCloud.World U) :=
  message_over (map_to_list m_sinks) m_level category level callback location w.

End Emission.

(** One call of [message(logger, level, message, location, args...)], the
    overload that runs on [buffer()]: the table of the driver it is made
    on, the level and category of its logger, and the arguments. *)
Record Call (U : Type) := MkCall {
  c_sinks : gmap nat bool;
  c_m_level : Level;
  c_category : StringType;
  c_level : Level;
  c_callback : Callback U;
  c_location : Location
}.
Arguments MkCall {U} c_sinks c_m_level c_category c_level c_callback c_location.
Arguments c_sinks {U} c.
Arguments c_m_level {U} c.
Arguments c_category {U} c.
Arguments c_level {U} c.
Arguments c_callback {U} c.
Arguments c_location {U} c.

Definition call {U : Type} (sink_does : SinkPtr → Buffer → Buffer * bool)
    (c : Call U) (w : PlainCloud.World U) : Outcome (PlainCloud.World U) :=
  message sink_does (c_sinks c) (c_m_level c) (c_category c) (c_level c)
    (c_callback c) (c_location c) w.

(** [buffer()] returns a [static thread_local] buffer: every call of a
    thread, on whichever driver, works on the buffer the previous call
    left. [message_all] runs the calls of one thread in order for as long
    as they return; the first call that throws ends the run. *)
Fixpoint message_all {U : Type} (sink_does : SinkPtr → Buffer → Buffer * bool)
    (calls : list (Call U)) (w : PlainCloud.World U) : Outcome (PlainCloud.World U) :=
  match calls with
  | [] => Returned w
  | c :: rest =>
      match call sink_does c w with
      | Returned w' => message_all sink_does rest w'
      | Threw w' => Threw w'
      end
  end.

(** The buffer as the callback leaves it when it runs in state [u] on the
    buffer [b]. *)
Definition produced {U : Type} (callback : Callback U) (u : U) (b : Buffer) : Buffer :=
  match callback with
  | BufferWriter f => (f u b).1.2
  | _ => b
  end.

(** A callback of the first model seen as one that never throws. *)
Definition never_throws {U : Type} (callback : PlainCloud.Callback U) : Callback U :=
  match callback with
  | PlainCloud.BufferWriter f => BufferWriter (λ u b, (f u b, true))
  | PlainCloud.VoidCallable f => VoidCallable (λ u, (f u, true))
  | PlainCloud.ValueCallable f => ValueCallable (λ u, ((f u).1, Some (f u).2))
  | PlainCloud.PlainMessage text => PlainMessage text
  end.

End Exceptions.

(** ** The first driver under [MultiThreadedPolicy] *)
Module MultiThreaded.

(** Modelled from the spec: the [Mutex], [ReadLock] and [WriteLock] of
    [MultiThreadedPolicy] ([policy.h] is not part of the tree). Structural
    mutation takes an exclusive lock, emission a shared lock, which lets
    several emissions run at once and keeps them apart from structural
    change. *)
Record Mutex := MkMutex { readers : nat; writer : bool }.

Definition free : Mutex := MkMutex 0 false.

(** [ReadLock lock(m_mutex)]: [None] while a writer holds the mutex. *)
Definition read_lock (m : Mutex) : option Mutex :=
  if writer m then None else Some (MkMutex (S (readers m)) false).

Definition read_unlock (m : Mutex) : Mutex := MkMutex (pred (readers m)) (writer m).

(** [WriteLock lock(m_mutex)]: [None] while anyone holds the mutex. *)
Definition write_lock (m : Mutex) : option Mutex :=
  if writer m then None
  else if bool_decide (readers m = 0) then Some (MkMutex 0 true) else None.

Definition write_unlock (m : Mutex) : Mutex := MkMutex (readers m) false.

(** What a thread is calling on the driver. *)
Inductive Request (U : Type) :=
| Message (m_level : Level) (category : StringType) (level : Level)
    (callback : PlainCloud.Callback U) (location : Location)
| AddSink (sink : SinkPtr)
| RemoveSink (sink : SinkPtr)
| SetSinkEnabled (sink : SinkPtr) (enabled : bool).
Arguments Message {U} m_level category level callback location.
Arguments AddSink {U} sink.
Arguments RemoveSink {U} sink.
Arguments SetSinkEnabled {U} sink enabled.

(** Where a thread is in its call. An emitting thread takes the read lock
    and then, for each enabled sink in turn, runs the callback, calls the
    sink and resets the buffer: the three statements of the body of the
    loop of the single-threaded driver it forwards to. [todo] are the
    enabled sinks still to serve, the first of them being served. *)
Inductive Position :=
| Start
| AtCallback (todo : list SinkPtr)
| AtSink (todo : list SinkPtr) (message : option StringType)
| AtReset (todo : list SinkPtr)
| InWrite
| Finished.

Record Thread (U : Type) := MkThread {
  request : Request U;
  position : Position;
  captured : U
}.
Arguments MkThread {U} request position captured.
Arguments request {U} t.
Arguments position {U} t.
Arguments captured {U} t.

(** What the threads share: the mutex and the table of the driver, and
    the buffer of [buffer()], which this driver declares [static] without
    [thread_local], so that there is one for all threads. *)
Record Shared := MkShared {
  m_mutex : Mutex;
  m_sinks : gmap nat bool;
  buffer : Buffer;
  trace : list PlainCloud.Event
}.

Section Steps.
Context {U : Type}.
Variable sink_leaves : SinkPtr → Buffer → Buffer.

(** The first statement of the body: the callback is run, where the shape
    of the callback has one to run; the message it returns, or the plain
    message, is kept for the call of the sink. *)
Definition callback_step (callback : PlainCloud.Callback U) (w : PlainCloud.World U)
  : PlainCloud.World U * option StringType :=
  match callback with
  | PlainCloud.BufferWriter f =>
      let '(u, b) := f (PlainCloud.user w) (PlainCloud.buffer w) in
      (PlainCloud.MkWorld u b (PlainCloud.trace w ++ [PlainCloud.Invoked]), None)
  | PlainCloud.VoidCallable f =>
      (PlainCloud.MkWorld (f (PlainCloud.user w)) (PlainCloud.buffer w)
         (PlainCloud.trace w ++ [PlainCloud.Invoked]), None)
  | PlainCloud.ValueCallable f =>
      let '(u, text) := f (PlainCloud.user w) in
      (PlainCloud.MkWorld u (PlainCloud.buffer w)
         (PlainCloud.trace w ++ [PlainCloud.Invoked]), Some text)
  | PlainCloud.PlainMessage text => (w, Some text)
  end.

(** The last statement of the body: [buffer.str(std::basic_string<CharType>{})]. *)
Definition reset_step (w : PlainCloud.World U) : PlainCloud.World U :=
  PlainCloud.MkWorld (PlainCloud.user w) []
    (PlainCloud.trace w ++ [PlainCloud.BufferReset]).

(** The thread as it sees the shared buffer and trace, and back. *)
Definition view (t : Thread U) (s : Shared) : PlainCloud.World U :=
  PlainCloud.MkWorld (captured t) (buffer s) (trace s).

Definition store (w : PlainCloud.World U) (s : Shared) : Shared :=
  MkShared (m_mutex s) (m_sinks s) (PlainCloud.buffer w) (PlainCloud.trace w).

(** One step of one thread; [None] when the thread is blocked on the
    mutex or has nothing left to do. *)
Definition step (t : Thread U) (s : Shared) : option (Thread U * Shared) :=
  match request t, position t with
  | Message m_level category level callback location, Start =>
      match read_lock (m_mutex s) with
      | Some locked =>
          let todo := if Level_lt m_level level then []
                      else PlainCloud.enabled_sinks (map_to_list (m_sinks s)) in
          Some (MkThread (request t) (AtCallback todo) (captured t),
                MkShared locked (m_sinks s) (buffer s) (trace s))
      | None => None
      end
  | Message _ _ _ _ _, AtCallback [] =>
      Some (MkThread (request t) Finished (captured t),
            MkShared (read_unlock (m_mutex s)) (m_sinks s) (buffer s) (trace s))
  | Message _ _ _ callback _, AtCallback (sink :: rest) =>
      let '(w, text) := callback_step callback (view t s) in
      Some (MkThread (request t) (AtSink (sink :: rest) text) (PlainCloud.user w), store w s)
  | Message _ category level _ location, AtSink (sink :: rest) text =>
      let w := PlainCloud.sink_message sink_leaves sink level category text location
                 (view t s) in
      Some (MkThread (request t) (AtReset (sink :: rest)) (PlainCloud.user w), store w s)
  | Message _ _ _ _ _, AtReset (sink :: rest) =>
      let w := reset_step (view t s) in
      Some (MkThread (request t) (AtCallback rest) (PlainCloud.user w), store w s)
  | Message _ _ _ _ _, _ => None
  | _, Start =>
      match write_lock (m_mutex s) with
      | Some locked =>
          Some (MkThread (request t) InWrite (captured t),
                MkShared locked (m_sinks s) (buffer s) (trace s))
      | None => None
      end
  | AddSink sink, InWrite =>
      Some (MkThread (request t) Finished (captured t),
            MkShared (write_unlock (m_mutex s)) (PlainCloud.add_sink sink (m_sinks s)).2
              (buffer s) (trace s))
  | RemoveSink sink, InWrite =>
      Some (MkThread (request t) Finished (captured t),
            MkShared (write_unlock (m_mutex s)) (PlainCloud.remove_sink sink (m_sinks s)).2
              (buffer s) (trace s))
  | SetSinkEnabled sink enabled, InWrite =>
      Some (MkThread (request t) Finished (captured t),
            MkShared (write_unlock (m_mutex s))
              (PlainCloud.set_sink_enabled sink enabled (m_sinks s)).2
              (buffer s) (trace s))
  | _, _ => None
  end.

(** A schedule names, step by step, the thread that moves. *)
Fixpoint run (schedule : list nat) (threads : list (Thread U)) (s : Shared)
  : option (list (Thread U) * Shared) :=
  match schedule with
  | [] => Some (threads, s)
  | i :: rest =>
      match threads !! i with
      | Some t =>
          match step t s with
          | Some (t', s') => run rest (<[i := t']> threads) s'
          | None => None
          end
      | None => None
      end
  end.

End Steps.

(** What is seen of a run: where each thread stands, the mutex, and the
    buffers the sinks were handed, in order; [None] for a schedule that
    asks a blocked or finished thread to move. *)
Definition observed {U : Type} (result : option (list (Thread U) * Shared))
  : option (list Position * Mutex * list Buffer) :=
  match result with
  | Some (threads, s) =>
      Some (position <$> threads, m_mutex s, PlainCloud.buffers_handed (trace s))
  | None => None
  end.

End MultiThreaded.

(** ** Concrete inputs for the examples *)

Definition here : Location := {| file_name := []; function_name := []; line := 7 |}.

(** A callable that counts its own invocations and returns an empty message. *)
Definition counting : nat → nat * StringType := λ calls, (S calls, []).

(** A table with two enabled sinks, at addresses 1 and 2. *)
Definition two_sinks : gmap nat bool := <[2 := true]> (<[1 := true]> ∅).

(** A sink that hands the buffer back as it got it. *)
Definition untouched : SinkPtr → Buffer → Buffer := λ _ b, b.

(** A callback that appends one character to the buffer, and a thread
    about to emit through it at level Info on a logger of threshold Info. *)
Definition appending (c : ascii) : PlainCloud.Callback unit :=
  PlainCloud.BufferWriter (λ u b, (u, b ++ [c])).

Definition emitter (c : ascii) : MultiThreaded.Thread unit :=
  MultiThreaded.MkThread (MultiThreaded.Message Info [] Info (appending c) here)
    MultiThreaded.Start tt.

(** A table with the one enabled sink 1. *)
Definition one_sink : gmap nat bool := <[1 := true]> ∅.

(** Sinks of which sink 1 throws, leaving the buffer as it got it, and
    every other sink returns. *)
Definition first_throws : SinkPtr → Buffer → Buffer * bool :=
  λ sink b, (b, negb (bool_decide (sink = 1))).

(** * Properties *)

(** ** Properties of the bookkeeping *)

Lemma position_in_criticality (l : Level) :
  position_in l criticality_order = level_value l.
Proof. by destruct l. Qed.

Lemma at_least_as_critical_value (l t : Level) :
  at_least_as_critical l t ↔ level_value l ≤ level_value t.
Proof. unfold at_least_as_critical. by rewrite !position_in_criticality. Qed.

(** C7. [set_sink_enabled sink b] on a table that does not know [sink]
    returns [false] and leaves the table as it was; on a table that knows
    it, it returns [true], the sink's flag becomes [b], every other entry
    keeps its flag and the set of known sinks is unchanged. The function is
    total: the unknown sink is reported by the result alone. *)
Theorem set_sink_enabled_spec (sink : SinkPtr) (b : bool) (m_sinks : gmap nat bool) :
  (m_sinks !! sink = None →
     PlainCloud.set_sink_enabled sink b m_sinks = (false, m_sinks))
  ∧ (is_Some (m_sinks !! sink) →
     ∃ m', PlainCloud.set_sink_enabled sink b m_sinks = (true, m')
           ∧ m' !! sink = Some b
           ∧ (∀ other, other ≠ sink → m' !! other = m_sinks !! other)
           ∧ dom m' = dom m_sinks).
Proof.
  unfold PlainCloud.set_sink_enabled. split.
  - by intros ->.
  - intros [old Hold]. rewrite Hold. exists (<[sink := b]> m_sinks).
    repeat split.
    + apply lookup_insert_eq.
    + intros other Hne. by apply lookup_insert_ne.
    + apply set_eq. intros k. rewrite dom_insert, elem_of_union, elem_of_singleton.
      split; [intros [-> | Hk]; [|done] | by right].
      apply elem_of_dom. by exists old.
Qed.

(** C9. When [sink] is already in the table, [add_sink] returns [false]
    and nevertheless stores [true] as its flag, whatever the flag was. In
    particular, after [set_sink_enabled sink false] a repeated
    [add_sink sink] makes [sink_enabled sink] answer [true] again; no other
    entry changes. *)
Theorem add_sink_again_enables (sink : SinkPtr) (m_sinks : gmap nat bool) :
  is_Some (m_sinks !! sink) →
  let disabled := (PlainCloud.set_sink_enabled sink false m_sinks).2 in
  (PlainCloud.add_sink sink m_sinks).1 = false
  ∧ (PlainCloud.add_sink sink m_sinks).2 !! sink = Some true
  ∧ PlainCloud.sink_enabled sink disabled = false
  ∧ (PlainCloud.add_sink sink disabled).1 = false
  ∧ PlainCloud.sink_enabled sink (PlainCloud.add_sink sink disabled).2 = true
  ∧ ∀ other, other ≠ sink →
      (PlainCloud.add_sink sink disabled).2 !! other = m_sinks !! other.
Proof.
  intros [old Hold].
  unfold PlainCloud.set_sink_enabled, PlainCloud.add_sink, PlainCloud.sink_enabled.
  rewrite Hold. simpl. rewrite !lookup_insert_eq.
  split; [done|]. split; [done|]. split; [done|].
  split. { by apply bool_decide_eq_false. }
  split; [done|].
  intros other Hne. by rewrite !lookup_insert_ne.
Qed.

(** ** The cached effective sinks *)

(** Induction over a tree of nodes: a property of a node may rely on the
    property of each of its children. *)
Section NodeInduction.
Variable P : SinkTree.Node → Prop.
Hypothesis step : ∀ logger sinks effective children,
  Forall P children → P (SinkTree.MkNode logger sinks effective children).

Fixpoint Node_tree_ind (node : SinkTree.Node) : P node :=
  match node with
  | SinkTree.MkNode logger sinks effective children =>
      step logger sinks effective children
        ((fix all (l : list SinkTree.Node) : Forall P l :=
            match l with
            | [] => @List.Forall_nil _ P
            | child :: rest => @List.Forall_cons _ P child rest (Node_tree_ind child) (all rest)
            end) children)
  end.
End NodeInduction.

Lemma overlay_own_lookup (logger : LoggerPtr) (sinks : gmap nat bool)
    (parent : gmap nat nat) (sink : SinkPtr) :
  SinkTree.overlay_own logger sinks parent !! sink =
    match sinks !! sink with
    | Some true => Some logger
    | _ => parent !! sink
    end.
Proof.
  unfold SinkTree.overlay_own.
  revert sink.
  apply (map_fold_weak_ind (λ r (m : gmap nat bool), ∀ sink,
    r !! sink = match m !! sink with Some true => Some logger | _ => parent !! sink end)).
  - intros sink. by rewrite lookup_empty.
  - intros i enabled m r Hfresh IH sink.
    destruct (decide (i = sink)) as [-> | Hne].
    + rewrite lookup_insert_eq. destruct enabled.
      * by rewrite lookup_insert_eq.
      * rewrite IH, Hfresh. done.
    + rewrite lookup_insert_ne by done. destruct enabled.
      * rewrite lookup_insert_ne by done. apply IH.
      * apply IH.
Qed.

Lemma own_enabled_lookup (node : SinkTree.Node) (sink : SinkPtr) :
  SinkTree.own_enabled node !! sink =
    match SinkTree.m_sinks node !! sink with
    | Some true => Some (SinkTree.m_logger node)
    | _ => None
    end.
Proof.
  unfold SinkTree.own_enabled. rewrite lookup_fmap.
  destruct (SinkTree.m_sinks node !! sink) as [[|]|] eqn:Hs.
  - erewrite (map_lookup_filter_Some_2 _ _ sink true); done.
  - rewrite (map_lookup_filter_None_2 _ _ sink); [done|].
    right. intros x Hx. simpl. congruence.
  - rewrite (map_lookup_filter_None_2 _ _ sink); [done|]. by left.
Qed.

(** The recomputation is the overlay of the invariant: own enabled sinks, each
    mapped to the node, over the parent's set, the own entry winning. *)
Lemma overlay_own_union (node : SinkTree.Node) (parent : gmap nat nat) :
  SinkTree.overlay_own (SinkTree.m_logger node) (SinkTree.m_sinks node) parent
  = SinkTree.own_enabled node ∪ parent.
Proof.
  apply map_eq. intros sink.
  rewrite overlay_own_lookup, lookup_union, own_enabled_lookup.
  destruct (SinkTree.m_sinks node !! sink) as [[|]|];
    destruct (parent !! sink); done.
Qed.

Lemma consistent_children (parent : gmap nat nat) (node : SinkTree.Node) :
  SinkTree.consistent parent node →
  Forall (SinkTree.consistent (SinkTree.m_effective_sinks node)) (SinkTree.m_children node).
Proof. by inversion 1. Qed.

(** Recomputing a node whose children agree with its present cache leaves
    the whole subtree consistent, whether or not the recursion into the
    children is cut short. *)
Lemma update_consistent (node : SinkTree.Node) :
  ∀ parent,
    Forall (SinkTree.consistent (SinkTree.m_effective_sinks node)) (SinkTree.m_children node) →
    SinkTree.consistent parent (SinkTree.update_effective_sinks parent node).
Proof.
  induction node as [logger sinks effective children IH] using Node_tree_ind.
  intros parent Hchildren. simpl in *.
  pose proof (overlay_own_union (SinkTree.MkNode logger sinks effective children) parent) as Hov.
  simpl in Hov.
  destruct (decide (SinkTree.overlay_own logger sinks parent = effective)) as [Heq | Hne].
  - constructor; simpl.
    + rewrite Hov. done.
    + by rewrite Heq.
  - constructor; simpl.
    + rewrite Hov. done.
    + apply Forall_fmap. rewrite Forall_forall in IH, Hchildren |- *.
      intros child Hin. simpl. apply IH; [done|].
      eapply consistent_children. by apply Hchildren.
Qed.

(** A change that keeps the changed node consistent keeps the tree so. *)
Lemma at_node_consistent (change : gmap nat nat → SinkTree.Node → SinkTree.Node) :
  (∀ parent node, SinkTree.consistent parent node → SinkTree.consistent parent (change parent node)) →
  ∀ path parent node,
    SinkTree.consistent parent node →
    SinkTree.consistent parent (SinkTree.at_node path change parent node).
Proof.
  intros Hchange path. induction path as [|i rest IH]; intros parent node Hnode.
  - by apply Hchange.
  - simpl. inversion Hnode as [? ? Heff Hch]; subst.
    constructor; simpl.
    + rewrite Heff. done.
    + apply Forall_alter; [exact Hch|].
      intros child _ Hchild. by apply IH.
Qed.

Lemma mutate_consistent (sinks' : gmap nat bool) (parent : gmap nat nat) (node : SinkTree.Node) :
  SinkTree.consistent parent node →
  SinkTree.consistent parent
    (SinkTree.update_effective_sinks parent
       (SinkTree.MkNode (SinkTree.m_logger node) sinks'
          (SinkTree.m_effective_sinks node) (SinkTree.m_children node))).
Proof. intros H. apply update_consistent. simpl. by eapply consistent_children. Qed.

Lemma new_root_consistent (logger : LoggerPtr) (sinks : list SinkPtr) :
  SinkTree.consistent ∅ (SinkTree.new_root logger sinks).
Proof. apply update_consistent. constructor. Qed.

Lemma perform_consistent (op : SinkTree.Operation) (root : SinkTree.Node) :
  SinkTree.consistent ∅ root → SinkTree.consistent ∅ (SinkTree.perform op root).
Proof.
  intros Hroot. destruct op; simpl; apply at_node_consistent; try done.
  - intros parent node Hn. by apply mutate_consistent.
  - intros parent node Hn. by apply mutate_consistent.
  - intros parent node Hn. unfold SinkTree.set_sink_enabled.
    destruct (SinkTree.m_sinks node !! sink); [by apply mutate_consistent | done].
  - intros parent node Hn. inversion Hn as [? ? Heff Hch]; subst.
    constructor; [exact Heff|].
    apply Forall_app. split; [exact Hch|]. apply Forall_singleton.
    apply update_consistent. constructor.
  - intros parent node Hn. inversion Hn as [? ? Heff Hch]; subst.
    constructor; [exact Heff|]. by apply Forall_delete.
Qed.

Lemma run_consistent (ops : list SinkTree.Operation) :
  ∀ root, SinkTree.consistent ∅ root → SinkTree.consistent ∅ (SinkTree.run ops root).
Proof.
  unfold SinkTree.run.
  induction ops as [|op ops IH]; intros root Hroot; simpl.
  - done.
  - apply IH. by apply perform_consistent.
Qed.

(** C3. Whatever sequence of operations (adding, removing, enabling or
    disabling a sink at any node, attaching a node, destroying a subtree)
    is run from a freshly constructed root, in the resulting tree every
    node's cached effective set equals its own enabled sinks, each mapped
    to the node itself, overlaid on its parent's effective set (empty for
    the root), the own entry winning for a sink present in both. *)
Theorem effective_sinks_invariant (ops : list SinkTree.Operation)
    (logger : LoggerPtr) (sinks : list SinkPtr) :
  SinkTree.consistent ∅ (SinkTree.run ops (SinkTree.new_root logger sinks)).
Proof.
  apply run_consistent.
  unfold SinkTree.new_root. apply update_consistent.
  unfold SinkTree.fresh. simpl. constructor.
Qed.

(** Two consistent trees with the same topology carry the same caches. *)
Lemma consistent_topology (a : SinkTree.Node) :
  ∀ parent b,
    SinkTree.consistent parent a → SinkTree.consistent parent b →
    SinkTree.topology a = SinkTree.topology b → a = b.
Proof.
  induction a as [logger sinks effective children IH] using Node_tree_ind.
  intros parent [logger' sinks' effective' children'] Ha Hb Htop.
  simpl in Htop. injection Htop as -> -> Hchildren.
  inversion Ha as [? ? Heff Hch]; subst. inversion Hb as [? ? Heff' Hch']; subst.
  simpl in *.
  assert (effective = effective') as <-.
  { rewrite Heff, Heff'. done. }
  f_equal.
  clear Heff Heff' Ha Hb. revert children' Hch' Hchildren.
  induction children as [|child children IHc]; intros [|child' children'] Hch' Hchildren;
    simpl in Hchildren; try done.
  injection Hchildren as Hhead Htail.
  apply Forall_cons in IH as [IHhead IHtail].
  apply Forall_cons in Hch as [Hchild Hch].
  apply Forall_cons in Hch' as [Hchild' Hch'].
  f_equal.
  - by apply (IHhead effective).
  - by apply IHc.
Qed.

(** Confluence: two sequences of operations that reach the same topology
    reach the same effective sets. *)
Lemma effective_sinks_confluent (ops ops' : list SinkTree.Operation)
    (logger logger' : LoggerPtr) (sinks sinks' : list SinkPtr) :
  SinkTree.topology (SinkTree.run ops (SinkTree.new_root logger sinks))
  = SinkTree.topology (SinkTree.run ops' (SinkTree.new_root logger' sinks')) →
  SinkTree.run ops (SinkTree.new_root logger sinks)
  = SinkTree.run ops' (SinkTree.new_root logger' sinks').
Proof.
  apply (consistent_topology _ ∅); apply run_consistent, new_root_consistent.
Qed.

(** ** Emission through the second driver *)

Section SlimLogEmission.
Context {U : Type}.
Variable threshold : LoggerPtr → Level.

Lemma admissible_cons (sink : SinkPtr) (logger : LoggerPtr)
    (rest : list (SinkPtr * LoggerPtr)) (level : Level) :
  SlimLog.admissible threshold ((sink, logger) :: rest) level =
    if SlimLog.level_enabled (threshold logger) level
    then (sink, logger) :: SlimLog.admissible threshold rest level
    else SlimLog.admissible threshold rest level.
Proof.
  unfold SlimLog.admissible. rewrite filter_cons. simpl.
  by destruct (SlimLog.level_enabled (threshold logger) level).
Qed.

(** Once the message has been evaluated the loop only hands the record,
    unchanged, to every entry whose owner admits the level. *)
Lemma message_loop_evaluated (entries : list (SinkPtr * LoggerPtr)) (level : Level)
    (callback : SlimLog.Callback U) (w : SlimLog.World U) :
  SlimLog.message_loop threshold entries level callback true w =
    SlimLog.MkWorld (SlimLog.user w) (SlimLog.buffer w) (SlimLog.record w)
      (SlimLog.trace w ++
         ((λ entry, SlimLog.SinkMessage entry.1 (SlimLog.record w))
            <$> SlimLog.admissible threshold entries level)).
Proof.
  revert w. induction entries as [|[sink logger] rest IH]; intros w.
  - destruct w. simpl. by rewrite app_nil_r.
  - rewrite admissible_cons. simpl.
    destruct (SlimLog.level_enabled (threshold logger) level) eqn:Hen; simpl.
    + rewrite IH. simpl. by rewrite <- app_assoc.
    + apply IH.
Qed.

(** Before that, entries whose owner does not admit the level are passed
    over; at the first one that does the callback is evaluated, and the
    loop either stops (the void callable) or serves it and goes on. *)
Lemma message_loop_unevaluated (entries : list (SinkPtr * LoggerPtr)) (level : Level)
    (callback : SlimLog.Callback U) (w : SlimLog.World U) :
  SlimLog.message_loop threshold entries level callback false w =
    match SlimLog.admissible threshold entries level with
    | [] => w
    | served =>
        let w' := (SlimLog.evaluate callback w).1 in
        if SlimLog.is_void callback then w'
        else SlimLog.MkWorld (SlimLog.user w') (SlimLog.buffer w') (SlimLog.record w')
               (SlimLog.trace w' ++
                  ((λ entry, SlimLog.SinkMessage entry.1 (SlimLog.record w')) <$> served))
    end.
Proof.
  induction entries as [|[sink logger] rest IH].
  - done.
  - rewrite admissible_cons. simpl.
    destruct (SlimLog.level_enabled (threshold logger) level) eqn:Hen; simpl.
    + destruct (SlimLog.evaluate callback w) as [w' stop] eqn:Hev.
      assert (stop = SlimLog.is_void callback) as ->.
      { destruct callback; simpl in Hev;
          repeat match type of Hev with context [let '(_, _) := ?x in _] => destruct x end;
          by inversion Hev. }
      simpl. destruct (SlimLog.is_void callback); [done|].
      rewrite message_loop_evaluated. simpl. by rewrite <- app_assoc.
    + apply IH.
Qed.

(** Evaluating invokes a callable once and a plain message never; it adds
    no sink call. *)
Lemma evaluate_trace (callback : SlimLog.Callback U) (w : SlimLog.World U) :
  SlimLog.trace (SlimLog.evaluate callback w).1 =
    SlimLog.trace w ++ (if SlimLog.is_callable callback then [SlimLog.Invoked] else []).
Proof.
  destruct callback as [f|f|f|text]; simpl.
  - by destruct (f _ _).
  - done.
  - by destruct (f _).
  - by rewrite app_nil_r.
Qed.

Lemma slim_invocations_deliveries (events : list SlimLog.Event)
    (record : SlimLog.LogRecord) (served : list (SinkPtr * LoggerPtr)) :
  SlimLog.invocations
    (events ++ ((λ entry, SlimLog.SinkMessage entry.1 record) <$> served))
  = SlimLog.invocations events.
Proof.
  unfold SlimLog.invocations. rewrite filter_app, length_app.
  induction served as [|entry served IH]; simpl; [lia|].
  rewrite filter_cons, decide_False by done. exact IH.
Qed.

Lemma slim_sink_calls_deliveries (events : list SlimLog.Event)
    (record : SlimLog.LogRecord) (served : list (SinkPtr * LoggerPtr)) :
  SlimLog.sink_calls
    (events ++ ((λ entry, SlimLog.SinkMessage entry.1 record) <$> served))
  = SlimLog.sink_calls events ++ ((λ entry, (entry.1, record)) <$> served).
Proof.
  unfold SlimLog.sink_calls. rewrite omap_app. f_equal.
  induction served as [|entry served IH]; simpl; [done|]. by f_equal.
Qed.

End SlimLogEmission.

(** ** Emission through the first driver and through [Logger::emit] *)

Lemma Level_lt_admits (m_level level : Level) :
  Level_lt m_level level = false ↔ at_least_as_critical level m_level.
Proof.
  unfold Level_lt. rewrite bool_decide_eq_false, at_least_as_critical_value. lia.
Qed.

Lemma Level_ge_admits (m_level level : Level) :
  Level_ge m_level level = true ↔ at_least_as_critical level m_level.
Proof.
  unfold Level_ge. by rewrite bool_decide_eq_true, at_least_as_critical_value.
Qed.

Section LegacyEmission.
Context {U : Type}.
Variable sink_leaves : SinkPtr → Buffer → Buffer.

(** What serving one enabled sink adds to the trace: the invocation of a
    callable, the call of the sink, the reset of the buffer. *)
Lemma serve_trace (sink : SinkPtr) (level : Level) (category : StringType)
    (callback : PlainCloud.Callback U) (location : Location) (w : PlainCloud.World U) :
  ∃ text,
    PlainCloud.trace (PlainCloud.serve sink_leaves sink level category callback location w) =
      PlainCloud.trace w
      ++ (if PlainCloud.is_callable callback then [PlainCloud.Invoked] else [])
      ++ [PlainCloud.SinkMessage sink
            (PlainCloud.produced callback (PlainCloud.user w) (PlainCloud.buffer w))
            level category text location;
          PlainCloud.BufferReset].
Proof.
  unfold PlainCloud.serve, PlainCloud.sink_message.
  destruct callback as [f|f|f|text]; simpl.
  - destruct (f _ _) as [u b]. exists None. simpl. by rewrite <- !app_assoc.
  - exists None. by rewrite <- !app_assoc.
  - destruct (f _) as [u text]. exists (Some text). simpl. by rewrite <- !app_assoc.
  - exists (Some text). by rewrite <- !app_assoc.
Qed.

Lemma serve_buffer (sink : SinkPtr) (level : Level) (category : StringType)
    (callback : PlainCloud.Callback U) (location : Location) (w : PlainCloud.World U) :
  PlainCloud.buffer (PlainCloud.serve sink_leaves sink level category callback location w) = [].
Proof. done. Qed.

Lemma enabled_sinks_cons (sink : SinkPtr) (enabled : bool) (rest : list (SinkPtr * bool)) :
  PlainCloud.enabled_sinks ((sink, enabled) :: rest) =
    if enabled then sink :: PlainCloud.enabled_sinks rest else PlainCloud.enabled_sinks rest.
Proof.
  unfold PlainCloud.enabled_sinks. rewrite filter_cons. simpl. by destruct enabled.
Qed.

Lemma legacy_loop_keeps_empty (entries : list (SinkPtr * bool)) (level : Level)
    (category : StringType) (callback : PlainCloud.Callback U) (location : Location) :
  ∀ w : PlainCloud.World U,
    PlainCloud.buffer w = [] →
    PlainCloud.buffer
      (PlainCloud.message_loop sink_leaves entries level category callback location w) = [].
Proof.
  induction entries as [|[sink enabled] rest IH]; intros w Hw; [done|].
  simpl. destruct enabled; apply IH; [apply serve_buffer | done].
Qed.

(** A call that served at least one sink leaves the buffer empty. *)
Lemma legacy_loop_buffer (entries : list (SinkPtr * bool)) (level : Level)
    (category : StringType) (callback : PlainCloud.Callback U) (location : Location) :
  ∀ w : PlainCloud.World U,
    PlainCloud.enabled_sinks entries ≠ [] →
    PlainCloud.buffer
      (PlainCloud.message_loop sink_leaves entries level category callback location w) = [].
Proof.
  induction entries as [|[sink enabled] rest IH]; intros w Hne; [done|].
  rewrite enabled_sinks_cons in Hne. simpl. destruct enabled.
  - apply legacy_loop_keeps_empty, serve_buffer.
  - by apply IH.
Qed.

(** The loop, read off its trace: a callable runs once per enabled sink,
    the buffer is reset once per enabled sink and right after that sink's
    call, and the sinks called are the enabled ones. *)
Lemma legacy_loop_summary (entries : list (SinkPtr * bool)) (level : Level)
    (category : StringType) (callback : PlainCloud.Callback U) (location : Location) :
  ∀ w : PlainCloud.World U,
    let w' := PlainCloud.message_loop sink_leaves entries level category callback location w in
    PlainCloud.invocations (PlainCloud.trace w') =
      PlainCloud.invocations (PlainCloud.trace w)
      + (if PlainCloud.is_callable callback then length (PlainCloud.enabled_sinks entries) else 0)
    ∧ PlainCloud.resets (PlainCloud.trace w') =
        PlainCloud.resets (PlainCloud.trace w) + length (PlainCloud.enabled_sinks entries)
    ∧ PlainCloud.sinks_called (PlainCloud.trace w') =
        PlainCloud.sinks_called (PlainCloud.trace w) ++ PlainCloud.enabled_sinks entries
    ∧ (PlainCloud.reset_after_each_sink (PlainCloud.trace w) →
       PlainCloud.reset_after_each_sink (PlainCloud.trace w')).
Proof.
  induction entries as [|[sink enabled] rest IH]; intros w.
  - simpl. rewrite app_nil_r.
    repeat split; try done; destruct (PlainCloud.is_callable callback); lia.
  - rewrite enabled_sinks_cons. simpl. destruct enabled; [|apply IH].
    specialize (IH (PlainCloud.serve sink_leaves sink level category callback location w)).
    cbv zeta in IH. destruct IH as (Hinv & Hres & Hcalled & Hphase).
    destruct (serve_trace sink level category callback location w) as (text & Htr).
    rewrite Htr in Hinv, Hres, Hcalled, Hphase.
    unfold PlainCloud.invocations, PlainCloud.resets, PlainCloud.sinks_called,
      PlainCloud.reset_after_each_sink in *.
    rewrite !filter_app, !length_app in Hinv, Hres.
    rewrite !omap_app in Hcalled. rewrite !foldl_app in Hphase.
    repeat split.
    + rewrite Hinv. destruct (PlainCloud.is_callable callback); simpl; lia.
    + rewrite Hres. destruct (PlainCloud.is_callable callback); simpl; lia.
    + rewrite Hcalled. destruct (PlainCloud.is_callable callback); simpl;
        by rewrite <- app_assoc.
    + intros Hidle. apply Hphase. rewrite Hidle.
      by destruct (PlainCloud.is_callable callback).
Qed.

(** When the call starts on an empty buffer, every sink is handed the
    buffer as one run of the callback on an empty buffer left it. *)
Lemma legacy_loop_handed (entries : list (SinkPtr * bool)) (level : Level)
    (category : StringType) (callback : PlainCloud.Callback U) (location : Location) :
  ∀ w : PlainCloud.World U,
    PlainCloud.buffer w = [] →
    Forall (λ handed, ∃ u, handed = PlainCloud.produced callback u [])
      (PlainCloud.buffers_handed (PlainCloud.trace w)) →
    Forall (λ handed, ∃ u, handed = PlainCloud.produced callback u [])
      (PlainCloud.buffers_handed
         (PlainCloud.trace
            (PlainCloud.message_loop sink_leaves entries level category callback location w))).
Proof.
  induction entries as [|[sink enabled] rest IH]; intros w Hempty Hall; [done|].
  simpl. destruct enabled; [|by apply IH].
  apply IH; [apply serve_buffer|].
  destruct (serve_trace sink level category callback location w) as (text & ->).
  unfold PlainCloud.buffers_handed in *. rewrite !omap_app.
  apply Forall_app. split; [done|]. apply Forall_app. split.
  - by destruct (PlainCloud.is_callable callback).
  - simpl. apply Forall_singleton. exists (PlainCloud.user w). by rewrite Hempty.
Qed.

End LegacyEmission.

Section LoggerEmission.
Context {U : Type}.

Lemma emit_loop_disabled (entries : list (SinkPtr * bool)) (m_level level : Level)
    (callback : U → U * StringType) (location : Location) (w : U * list Logger.Event) :
  Level_ge m_level level = false →
  Logger.emit_loop entries m_level level callback location w = w.
Proof.
  intros Hlevel. revert w. induction entries as [|[sink flag] rest IH]; intros w; [done|].
  simpl. rewrite Hlevel. apply IH.
Qed.

Lemma emit_loop_enabled (entries : list (SinkPtr * bool)) (m_level level : Level)
    (callback : U → U * StringType) (location : Location) :
  Level_ge m_level level = true →
  ∀ w : U * list Logger.Event,
    let w' := Logger.emit_loop entries m_level level callback location w in
    Logger.sinks_called w'.2 = Logger.sinks_called w.2 ++ entries.*1
    ∧ Logger.invocations w'.2 = Logger.invocations w.2 + length entries.
Proof.
  intros Hlevel. induction entries as [|[sink flag] rest IH]; intros w.
  - simpl. rewrite app_nil_r. split; [done | lia].
  - simpl. rewrite Hlevel. destruct (callback w.1) as [u text].
    specialize (IH (u, w.2 ++ [Logger.Invoked; Logger.SinkEmit sink level text location])).
    cbv zeta in IH. destruct IH as [Hcalled Hinv]. simpl in Hcalled, Hinv.
    unfold Logger.sinks_called, Logger.invocations in *.
    rewrite omap_app in Hcalled. rewrite filter_app, length_app in Hinv.
    split.
    + rewrite Hcalled. simpl. by rewrite <- app_assoc.
    + rewrite Hinv. simpl. lia.
Qed.

End LoggerEmission.

(** ** Admission, evaluation and reset during a call *)

(** C2. A call at [level] on a logger whose threshold is [m_level] is
    admitted exactly when [level] is at least as critical as [m_level] in
    the order Fatal, Error, Warning, Info, Debug, Trace: that is what the
    guard of the first driver ([m_level < level] returns) and the guard of
    [Logger::emit] ([m_level >= level]) test. In the first driver an
    admitted call calls every enabled sink of the table, and a call that is
    not admitted returns the state it was given: the callback is not
    invoked and no sink is called. [Logger::emit] of [logger.h] does the
    same over every sink of its table. *)
Theorem disabled_level_evaluates_nothing {U : Type}
    (sink_leaves : SinkPtr → Buffer → Buffer) (m_sinks : gmap nat bool)
    (m_level level : Level) (category : StringType)
    (callback : PlainCloud.Callback U) (producer : U → U * StringType)
    (location : Location) (w : PlainCloud.World U) (e : U * list Logger.Event) :
  (Level_lt m_level level = false ↔ at_least_as_critical level m_level)
  ∧ (Level_ge m_level level = true ↔ at_least_as_critical level m_level)
  ∧ (at_least_as_critical level m_level →
     PlainCloud.sinks_called
       (PlainCloud.trace (PlainCloud.message sink_leaves m_sinks m_level category level
                            callback location w))
     = PlainCloud.sinks_called (PlainCloud.trace w)
       ++ PlainCloud.enabled_sinks (map_to_list m_sinks)
     ∧ Logger.sinks_called (Logger.emit m_sinks m_level level producer location e).2
       = Logger.sinks_called e.2 ++ (map_to_list m_sinks).*1)
  ∧ (¬ at_least_as_critical level m_level →
     PlainCloud.message sink_leaves m_sinks m_level category level callback location w = w
     ∧ Logger.emit m_sinks m_level level producer location e = e).
Proof.
  split; [apply Level_lt_admits|]. split; [apply Level_ge_admits|].
  unfold PlainCloud.message, PlainCloud.message_over, Logger.emit. split.
  - intros Hadm. split.
    + apply Level_lt_admits in Hadm as ->.
      apply legacy_loop_summary.
    + apply Level_ge_admits in Hadm. by apply emit_loop_enabled.
  - intros Hnot. split.
    + destruct (Level_lt m_level level) eqn:Hlt; [done|].
      by apply Level_lt_admits in Hlt.
    + apply emit_loop_disabled.
      destruct (Level_ge m_level level) eqn:Hge; [|done].
      by apply Level_ge_admits in Hge.
Qed.


Lemma level_enabled_admits (threshold level : Level) :
  SlimLog.level_enabled threshold level = true ↔ at_least_as_critical level threshold.
Proof. unfold SlimLog.level_enabled. apply bool_decide_eq_true. Qed.

(** What a call of the second driver leaves, in closed form. *)
Lemma message_over_result {U : Type} (threshold : LoggerPtr → Level)
    (entries : list (SinkPtr * LoggerPtr)) (level : Level) (callback : SlimLog.Callback U)
    (category : StringType) (location : Location) (thread_id : nat) (now : nat * nat) (u : U) :
  SlimLog.message_over threshold entries level callback category location thread_id now u =
    let start := SlimLog.initial level category location thread_id now u in
    match SlimLog.admissible threshold entries level with
    | [] => start
    | served =>
        let once := (SlimLog.evaluate callback start).1 in
        if SlimLog.is_void callback then once
        else SlimLog.MkWorld (SlimLog.user once) (SlimLog.buffer once) (SlimLog.record once)
               (SlimLog.trace once ++
                  ((λ entry, SlimLog.SinkMessage entry.1 (SlimLog.record once)) <$> served))
    end.
Proof. unfold SlimLog.message_over. apply message_loop_unevaluated. Qed.


(** C10. In the second driver a void callable that does not take the
    buffer is invoked once, at the first entry whose owner admits the
    level, and the iteration ends there: no sink is called, that first one
    included. When no owner admits the level it is not invoked at all. *)
Theorem void_callable_stops_iteration {U : Type} (threshold : LoggerPtr → Level)
    (entries : list (SinkPtr * LoggerPtr)) (level : Level) (f : U → U)
    (category : StringType) (location : Location) (thread_id : nat) (now : nat * nat) (u : U) :
  let w := SlimLog.message_over threshold entries level (SlimLog.VoidCallable f)
             category location thread_id now u in
  SlimLog.sink_calls (SlimLog.trace w) = []
  ∧ SlimLog.trace w =
      (if decide (SlimLog.admissible threshold entries level = []) then []
       else [SlimLog.Invoked])
  ∧ SlimLog.user w =
      (if decide (SlimLog.admissible threshold entries level = []) then u else f u).
Proof.
  intros w. subst w. rewrite message_over_result. cbv zeta.
  destruct (SlimLog.admissible threshold entries level) as [|first rest].
  - by rewrite decide_True.
  - by rewrite decide_False.
Qed.

(** C1. In the second driver a call with at least one entry whose owner
    admits the level evaluates the callback once, before the first sink is
    called: the state it leaves is the state after one evaluation, and,
    unless the callback is the void callable that ends the iteration,
    every admissible sink is handed the record carrying the result of that
    one evaluation. The first driver instead runs a callable once for each
    enabled sink of an admitted call. *)
Theorem callback_evaluated_once_per_call {U : Type} :
  (∀ (threshold : LoggerPtr → Level) (entries : list (SinkPtr * LoggerPtr))
     (level : Level) (callback : SlimLog.Callback U) (category : StringType)
     (location : Location) (thread_id : nat) (now : nat * nat) (u : U),
     SlimLog.admissible threshold entries level ≠ [] →
     let once := (SlimLog.evaluate callback
                    (SlimLog.initial level category location thread_id now u)).1 in
     let w := SlimLog.message_over threshold entries level callback category location
                thread_id now u in
     SlimLog.invocations (SlimLog.trace w) = (if SlimLog.is_callable callback then 1 else 0)
     ∧ SlimLog.user w = SlimLog.user once
     ∧ SlimLog.buffer w = SlimLog.buffer once
     ∧ SlimLog.record w = SlimLog.record once
     ∧ SlimLog.trace w =
         (if SlimLog.is_callable callback then [SlimLog.Invoked] else [])
         ++ (if SlimLog.is_void callback then []
             else (λ entry, SlimLog.SinkMessage entry.1 (SlimLog.record once))
                    <$> SlimLog.admissible threshold entries level))
  ∧ (∀ (sink_leaves : SinkPtr → Buffer → Buffer) (entries : list (SinkPtr * bool))
       (m_level : Level) (category : StringType) (level : Level)
       (callback : PlainCloud.Callback U) (location : Location) (w : PlainCloud.World U),
       at_least_as_critical level m_level →
       PlainCloud.invocations
         (PlainCloud.trace (PlainCloud.message_over sink_leaves entries m_level category level
                          callback location w))
       = PlainCloud.invocations (PlainCloud.trace w)
         + (if PlainCloud.is_callable callback then length (PlainCloud.enabled_sinks entries) else 0)).
Proof.
  split.
  - intros threshold entries level callback category location thread_id now u Hadm once w.
    assert (SlimLog.trace once =
              if SlimLog.is_callable callback then [SlimLog.Invoked] else []) as Honce.
    { subst once. by rewrite evaluate_trace. }
    subst w. rewrite message_over_result. cbv zeta. fold once.
    destruct (SlimLog.admissible threshold entries level) as [|first rest]; [done|].
    cbv beta iota. destruct (SlimLog.is_void callback) eqn:Hvoid.
    + rewrite app_nil_r, Honce. repeat split; try done.
      by destruct (SlimLog.is_callable callback).
    + cbn [SlimLog.trace SlimLog.user SlimLog.buffer SlimLog.record].
      rewrite slim_invocations_deliveries, Honce. repeat split; try done.
      by destruct (SlimLog.is_callable callback).
  - intros sink_leaves entries m_level category level callback location w Hadm.
    unfold PlainCloud.message_over. apply Level_lt_admits in Hadm as ->.
    apply legacy_loop_summary.
Qed.

(** C5. In an admitted call of the first driver the buffer is reset once
    for each enabled sink, right after that sink was called and before the
    next one is served; a call that served a sink leaves the buffer empty;
    and when the call starts on an empty buffer every sink is handed the
    buffer as a run of the callback on an empty buffer left it. *)
Theorem buffer_reset_after_each_sink {U : Type} (sink_leaves : SinkPtr → Buffer → Buffer)
    (entries : list (SinkPtr * bool)) (m_level : Level) (category : StringType)
    (level : Level) (callback : PlainCloud.Callback U) (location : Location)
    (w : PlainCloud.World U) :
  at_least_as_critical level m_level →
  let w' := PlainCloud.message_over sink_leaves entries m_level category level callback
              location w in
  PlainCloud.resets (PlainCloud.trace w') =
    PlainCloud.resets (PlainCloud.trace w) + length (PlainCloud.enabled_sinks entries)
  ∧ (PlainCloud.reset_after_each_sink (PlainCloud.trace w) →
     PlainCloud.reset_after_each_sink (PlainCloud.trace w'))
  ∧ (PlainCloud.enabled_sinks entries ≠ [] → PlainCloud.buffer w' = [])
  ∧ (PlainCloud.buffer w = [] →
     Forall (λ handed, ∃ u, handed = PlainCloud.produced callback u [])
       (PlainCloud.buffers_handed (PlainCloud.trace w)) →
     Forall (λ handed, ∃ u, handed = PlainCloud.produced callback u [])
       (PlainCloud.buffers_handed (PlainCloud.trace w'))).
Proof.
  intros Hadm w'. subst w'. unfold PlainCloud.message_over.
  apply Level_lt_admits in Hadm as ->.
  pose proof (legacy_loop_summary sink_leaves entries level category callback location w)
    as (_ & Hres & _ & Hphase).
  split; [exact Hres|]. split; [exact Hphase|]. split.
  - apply legacy_loop_buffer.
  - apply legacy_loop_handed.
Qed.

(** ** The stream sink *)

Lemma written_snoc (ops : list OStreamSink.StreamOp) (op : OStreamSink.StreamOp) :
  OStreamSink.written (ops ++ [op]) =
    OStreamSink.written ops
    ++ match op with OStreamSink.Write chars => chars | OStreamSink.Flush => [] end.
Proof.
  unfold OStreamSink.written. rewrite fmap_app, concat_app. simpl.
  by rewrite app_nil_r.
Qed.

(** C8. [message] writes to the stream, in one write, the rendered record
    followed by one line terminator, and hands the buffer back as it got it
    (same size, same content); the pattern is untouched. [flush] passes a
    flush on to the stream and writes nothing. *)
Theorem ostream_sink_writes_line {Pattern RecordType : Type}
    (render : Pattern → RecordType → list ascii)
    (sink : OStreamSink.Sink (Pattern:=Pattern)) (buffer : Buffer) (record : RecordType) :
  let after := OStreamSink.message render sink buffer record in
  let line := render (OStreamSink.m_pattern sink) record ++ [OStreamSink.newline] in
  OStreamSink.m_ostream after.1 = OStreamSink.m_ostream sink ++ [OStreamSink.Write line]
  ∧ OStreamSink.written (OStreamSink.m_ostream after.1) =
      OStreamSink.written (OStreamSink.m_ostream sink) ++ line
  ∧ after.2 = buffer
  ∧ OStreamSink.m_pattern after.1 = OStreamSink.m_pattern sink
  ∧ OStreamSink.m_ostream (OStreamSink.flush sink) =
      OStreamSink.m_ostream sink ++ [OStreamSink.Flush]
  ∧ OStreamSink.written (OStreamSink.m_ostream (OStreamSink.flush sink)) =
      OStreamSink.written (OStreamSink.m_ostream sink).
Proof.
  intros after line. subst after.
  unfold OStreamSink.message, OStreamSink.ostream_write, OStreamSink.format,
    OStreamSink.resize, OStreamSink.flush.
  cbn [fst snd OStreamSink.m_ostream OStreamSink.m_pattern].
  assert (drop (length buffer)
            ((buffer ++ render (OStreamSink.m_pattern sink) record) ++ [OStreamSink.newline])
          = line) as Hdrop.
  { rewrite <- app_assoc. by rewrite drop_app_length. }
  assert (length ((buffer ++ render (OStreamSink.m_pattern sink) record)
                    ++ [OStreamSink.newline]) - length buffer = length line) as Hlen.
  { subst line. rewrite !length_app. simpl. lia. }
  rewrite Hdrop, Hlen, firstn_all.
  split; [done|]. split; [by rewrite written_snoc|]. split.
  - rewrite <- app_assoc, take_app_length.
    replace (length buffer - _) with 0 by (rewrite !length_app; lia).
    simpl. by rewrite app_nil_r.
  - split; [done|]. split; [done|]. rewrite written_snoc. by rewrite app_nil_r.
Qed.

(** ** Concrete calls *)

(** The first driver, two enabled sinks, an admitted call: the callback
    runs twice, once for each sink, not once for the call. *)
Lemma legacy_callback_runs_for_each_sink :
  let w := PlainCloud.message untouched two_sinks Info [] Info
             (PlainCloud.ValueCallable counting) here (PlainCloud.MkWorld 0 [] []) in
  length (PlainCloud.enabled_sinks (map_to_list two_sinks)) = 2
  ∧ PlainCloud.invocations (PlainCloud.trace w) = 2
  ∧ PlainCloud.user w = 2
  ∧ PlainCloud.invocations (PlainCloud.trace w) ≠ 1.
Proof. vm_compute. repeat split; lia. Qed.

(** The first driver, two enabled sinks, a callback that writes "a" into
    the buffer: the buffer is reset between the two sinks, twice in all. *)
Lemma legacy_buffer_reset_between_sinks :
  let a := ascii_of_nat 97 in
  let w := PlainCloud.message untouched two_sinks Info [] Info
             (PlainCloud.BufferWriter (λ (u : unit) b, (u, b ++ [a]))) here
             (PlainCloud.MkWorld tt [] []) in
  PlainCloud.trace w =
    [PlainCloud.Invoked; PlainCloud.SinkMessage 2 [a] Info [] None here; PlainCloud.BufferReset;
     PlainCloud.Invoked; PlainCloud.SinkMessage 1 [a] Info [] None here; PlainCloud.BufferReset]
  ∧ PlainCloud.resets (PlainCloud.trace w) = 2
  ∧ PlainCloud.resets (PlainCloud.trace w) ≠ 1.
Proof. vm_compute. repeat split; lia. Qed.

Lemma callback_evaluated_once_per_call_witness :
  let threshold : LoggerPtr → Level := λ _, Info in
  let entries := [(1, 10); (2, 10)] in
  SlimLog.admissible threshold entries Info ≠ []
  ∧ SlimLog.invocations
      (SlimLog.trace
         (SlimLog.message_over threshold entries Info (SlimLog.ValueCallable counting)
            [] here 0 (0, 0) 0)) = 1.
Proof.
  split; [done|].
  apply (proj1 (callback_evaluated_once_per_call (U:=nat)) (λ _, Info) [(1, 10); (2, 10)]
           Info (SlimLog.ValueCallable counting) [] here 0 (0, 0) 0).
  done.
Defined.

Lemma disabled_level_evaluates_nothing_witness :
  ¬ at_least_as_critical Debug Info
  ∧ PlainCloud.message untouched two_sinks Info [] Debug (PlainCloud.ValueCallable counting) here
      (PlainCloud.MkWorld 0 [] []) = PlainCloud.MkWorld 0 [] []
  ∧ Logger.emit two_sinks Info Debug counting here (0, []) = (0, []).
Proof.
  assert (¬ at_least_as_critical Debug Info) as Hnot.
  { unfold at_least_as_critical. simpl. lia. }
  split; [exact Hnot|].
  apply (proj2 (proj2 (proj2 (disabled_level_evaluates_nothing untouched two_sinks Info Debug []
                  (PlainCloud.ValueCallable counting) counting here
                  (PlainCloud.MkWorld 0 [] []) (0, []))))).
  exact Hnot.
Defined.


Lemma buffer_reset_after_each_sink_witness :
  at_least_as_critical Info Info
  ∧ PlainCloud.resets
      (PlainCloud.trace
         (PlainCloud.message_over untouched [(1, true); (2, false); (3, true)] Info [] Info
            (PlainCloud.ValueCallable counting) here (PlainCloud.MkWorld 0 [] []))) = 2.
Proof.
  assert (at_least_as_critical Info Info) as Hadm.
  { unfold at_least_as_critical. simpl. lia. }
  split; [exact Hadm|].
  apply (buffer_reset_after_each_sink untouched [(1, true); (2, false); (3, true)] Info []
           Info (PlainCloud.ValueCallable counting) here (PlainCloud.MkWorld 0 [] []) Hadm).
Defined.

Lemma set_sink_enabled_spec_witness :
  (∅ : gmap nat bool) !! 1 = None
  ∧ PlainCloud.set_sink_enabled 1 true ∅ = (false, ∅).
Proof.
  split; [done|].
  apply (proj1 (set_sink_enabled_spec 1 true ∅)). done.
Defined.

Lemma add_sink_again_enables_witness :
  is_Some (two_sinks !! 1)
  ∧ (PlainCloud.add_sink 1 (PlainCloud.set_sink_enabled 1 false two_sinks).2).1 = false
  ∧ PlainCloud.sink_enabled 1
      (PlainCloud.add_sink 1 (PlainCloud.set_sink_enabled 1 false two_sinks).2).2 = true.
Proof.
  assert (is_Some (two_sinks !! 1)) as Hknown by (by exists true).
  split; [exact Hknown|].
  pose proof (add_sink_again_enables 1 two_sinks Hknown) as H. cbv zeta in H.
  split; apply H.
Defined.

(** The tree and the emission together: a root (logger 10, threshold
    Warning) holds sink 1; a child (logger 20, threshold Trace) holds none
    and inherits it. An Error logged at the child reaches the sink, a Debug
    does not, though the child itself would admit it. *)
Example inherited_sink_gated_by_parent :
  let tree := SinkTree.run [SinkTree.Attach [] 20 []] (SinkTree.new_root 10 [1]) in
  let threshold : LoggerPtr → Level := λ logger, if decide (logger = 10) then Warning else Trace in
  let calls level :=
    SlimLog.sink_calls
      (SlimLog.trace
         (SlimLog.message threshold
            (default ∅ (SinkTree.m_effective_sinks <$> SinkTree.m_children tree !! 0))
            level (SlimLog.PlainMessage (U:=unit) []) [] here 0 (0, 0) tt)) in
  (calls Error).*1 = [1] ∧ (calls Debug).*1 = [].
Proof. by vm_compute. Qed.

(** A child that adds the inherited sink itself becomes its owner. *)
Example readded_sink_owned_by_child :
  let tree := SinkTree.run [SinkTree.Attach [] 20 []; SinkTree.AddSink [0] 1]
                (SinkTree.new_root 10 [1]) in
  SinkTree.m_effective_sinks tree !! 1 = Some 10
  ∧ (SinkTree.m_effective_sinks <$> SinkTree.m_children tree !! 0) = Some {[1 := 20]}.
Proof. by vm_compute. Qed.

(** * Further properties of the code *)

(** ** The table of the first driver *)

(** [remove_sink] answers whether the sink was known; afterwards the sink
    is unknown (and so reported as not enabled), every other entry is as it
    was, and removing an unknown sink changes nothing. *)
Theorem remove_sink_forgets (sink : SinkPtr) (m_sinks : gmap nat bool) :
  let removed := PlainCloud.remove_sink sink m_sinks in
  (removed.1 = true ↔ is_Some (m_sinks !! sink))
  ∧ removed.2 !! sink = None
  ∧ PlainCloud.sink_enabled sink removed.2 = false
  ∧ (∀ other, other ≠ sink → removed.2 !! other = m_sinks !! other)
  ∧ (removed.1 = false → removed.2 = m_sinks).
Proof.
  unfold PlainCloud.remove_sink, PlainCloud.sink_enabled. simpl.
  split; [apply bool_decide_eq_true|].
  split; [apply lookup_delete_eq|].
  split; [by rewrite lookup_delete_eq|].
  split.
  - intros other Hne. by apply lookup_delete_ne.
  - intros Hunknown. apply bool_decide_eq_false in Hunknown.
    apply delete_id. by apply eq_None_not_Some.
Qed.

(** Adding a sink the table does not know returns [true], enables it and
    grows the table by one entry; removing it again returns [true] and
    gives back the table as it was. *)
Theorem add_then_remove_restores (sink : SinkPtr) (m_sinks : gmap nat bool) :
  m_sinks !! sink = None →
  let added := PlainCloud.add_sink sink m_sinks in
  added.1 = true
  ∧ PlainCloud.sink_enabled sink added.2 = true
  ∧ size added.2 = S (size m_sinks)
  ∧ PlainCloud.remove_sink sink added.2 = (true, m_sinks).
Proof.
  intros Hfresh. unfold PlainCloud.add_sink, PlainCloud.remove_sink, PlainCloud.sink_enabled.
  simpl. rewrite lookup_insert_eq.
  split; [by apply bool_decide_eq_true|]. split; [done|].
  split; [by apply map_size_insert_None|].
  rewrite delete_insert_eq, delete_id by done. done.
Qed.

Lemma add_then_remove_restores_witness :
  (∅ : gmap nat bool) !! 4 = None
  ∧ PlainCloud.remove_sink 4 (PlainCloud.add_sink 4 ∅).2 = (true, ∅).
Proof.
  split; [done|].
  apply (add_then_remove_restores 4 ∅). done.
Defined.

(** What [sink_enabled] answers after [set_sink_enabled sink b]: for
    [sink] itself it is [b] when the sink is known and [false] when it is
    not; for every other sink the answer is what it was. *)
Theorem sink_enabled_after_set (sink queried : SinkPtr) (b : bool) (m_sinks : gmap nat bool) :
  PlainCloud.sink_enabled queried (PlainCloud.set_sink_enabled sink b m_sinks).2 =
    if decide (queried = sink)
    then b && bool_decide (is_Some (m_sinks !! sink))
    else PlainCloud.sink_enabled queried m_sinks.
Proof.
  unfold PlainCloud.sink_enabled, PlainCloud.set_sink_enabled.
  destruct (decide (queried = sink)) as [-> | Hne].
  - destruct (m_sinks !! sink) as [old|] eqn:Hs; cbn [snd].
    + rewrite lookup_insert_eq. case_bool_decide as Hknown; [by rewrite andb_true_r|].
      destruct Hknown. by exists old.
    + rewrite Hs. case_bool_decide as Hknown; [|by rewrite andb_false_r].
      by destruct Hknown.
  - destruct (m_sinks !! sink) as [old|] eqn:Hs; cbn [snd]; [|done].
    by rewrite lookup_insert_ne.
Qed.

Lemma emplace_all_lookup (sinks : list SinkPtr) :
  ∀ (table : gmap nat bool) (sink : SinkPtr),
    foldl (λ table sink, emplace sink true table) table sinks !! sink =
      match table !! sink with
      | Some flag => Some flag
      | None => if bool_decide (sink ∈ sinks) then Some true else None
      end.
Proof.
  induction sinks as [|first rest IH]; intros table sink.
  - cbn [foldl]. case_bool_decide as Hin; [by apply elem_of_nil in Hin|].
    by destruct (table !! sink).
  - cbn [foldl]. rewrite IH. unfold emplace.
    destruct (decide (sink = first)) as [-> | Hne].
    + rewrite (bool_decide_eq_true_2 (first ∈ first :: rest)) by apply list_elem_of_here.
      destruct (table !! first) as [flag|] eqn:Hfirst.
      * by rewrite Hfirst.
      * by rewrite lookup_insert_eq.
    + assert (bool_decide (sink ∈ first :: rest) = bool_decide (sink ∈ rest)) as ->.
      { apply bool_decide_ext. rewrite elem_of_cons. split; [by intros [?|?] | by right]. }
      destruct (table !! first) as [flag|] eqn:Hfirst; [done|].
      by rewrite lookup_insert_ne.
Qed.

(** A driver constructed from a list of sinks knows exactly the listed
    sinks, each of them enabled, however often a sink is listed. *)
Theorem constructed_driver_enables_listed (sinks : list SinkPtr) (sink : SinkPtr) :
  PlainCloud.SinkDriver sinks !! sink = (if bool_decide (sink ∈ sinks) then Some true else None)
  ∧ PlainCloud.sink_enabled sink (PlainCloud.SinkDriver sinks) = bool_decide (sink ∈ sinks)
  ∧ size (PlainCloud.SinkDriver sinks) = length (remove_dups sinks).
Proof.
  assert (∀ s, PlainCloud.SinkDriver sinks !! s
               = if bool_decide (s ∈ sinks) then Some true else None) as Hlookup.
  { intros s. unfold PlainCloud.SinkDriver. by rewrite emplace_all_lookup, lookup_empty. }
  split; [apply Hlookup|]. split.
  - unfold PlainCloud.sink_enabled. rewrite Hlookup. by destruct (bool_decide (sink ∈ sinks)).
  - assert (PlainCloud.SinkDriver sinks
            = list_to_map ((λ s, (s, true)) <$> remove_dups sinks)) as ->.
    { apply map_eq. intros s. rewrite Hlookup.
      destruct (bool_decide (s ∈ sinks)) eqn:Hin.
      - apply bool_decide_eq_true in Hin. symmetry.
        apply elem_of_list_to_map_1.
        + rewrite <- list_fmap_compose. simpl. rewrite list_fmap_id. apply NoDup_remove_dups.
        + apply list_elem_of_fmap. exists s. split; [done|]. by apply elem_of_remove_dups.
      - apply bool_decide_eq_false in Hin. symmetry.
        apply not_elem_of_list_to_map_1. rewrite <- list_fmap_compose. simpl.
        rewrite list_fmap_id. by rewrite elem_of_remove_dups. }
    rewrite map_size_list_to_map.
    + by rewrite length_fmap.
    + rewrite <- list_fmap_compose. simpl. rewrite list_fmap_id. apply NoDup_remove_dups.
Qed.

(** ** Calls of the first driver *)

(** The enabled sinks a table yields: each sink whose flag is [true],
    once. *)
Lemma enabled_sinks_of_table (m_sinks : gmap nat bool) :
  NoDup (PlainCloud.enabled_sinks (map_to_list m_sinks))
  ∧ ∀ sink, sink ∈ PlainCloud.enabled_sinks (map_to_list m_sinks) ↔ m_sinks !! sink = Some true.
Proof.
  unfold PlainCloud.enabled_sinks. split.
  - apply (sublist_NoDup _ ((map_to_list m_sinks).*1)).
    + apply NoDup_fst_map_to_list.
    + apply fmap_sublist, sublist_filter.
  - intros sink. rewrite list_elem_of_fmap. split.
    + intros ([s flag] & -> & Hin). apply list_elem_of_filter in Hin as [Hflag Hin].
      simpl in *. subst flag. by apply elem_of_map_to_list.
    + intros Hlookup. exists (sink, true). split; [done|].
      apply list_elem_of_filter. split; [done|]. by apply elem_of_map_to_list.
Qed.

(** An admitted call calls each sink that the table holds with the flag
    [true] exactly once, and no other sink: a sink that is unknown, or
    known and disabled, is not called. *)
Theorem message_calls_enabled_sinks_once {U : Type}
    (sink_leaves : SinkPtr → Buffer → Buffer) (m_sinks : gmap nat bool)
    (m_level : Level) (category : StringType) (level : Level)
    (callback : PlainCloud.Callback U) (location : Location) (w : PlainCloud.World U) :
  at_least_as_critical level m_level →
  ∃ called,
    PlainCloud.sinks_called
      (PlainCloud.trace (PlainCloud.message sink_leaves m_sinks m_level category level
                           callback location w))
    = PlainCloud.sinks_called (PlainCloud.trace w) ++ called
    ∧ NoDup called
    ∧ ∀ sink, sink ∈ called ↔ m_sinks !! sink = Some true.
Proof.
  intros Hadm. exists (PlainCloud.enabled_sinks (map_to_list m_sinks)).
  unfold PlainCloud.message, PlainCloud.message_over.
  apply Level_lt_admits in Hadm as ->.
  split; [apply legacy_loop_summary|]. apply enabled_sinks_of_table.
Qed.

Lemma message_calls_enabled_sinks_once_witness :
  at_least_as_critical Error Info
  ∧ ∃ called,
      PlainCloud.sinks_called
        (PlainCloud.trace (PlainCloud.message untouched two_sinks Info [] Error
                             (PlainCloud.ValueCallable counting) here
                             (PlainCloud.MkWorld 0 [] [])))
      = PlainCloud.sinks_called [] ++ called
      ∧ NoDup called
      ∧ ∀ sink, sink ∈ called ↔ two_sinks !! sink = Some true.
Proof.
  assert (at_least_as_critical Error Info) as Hadm.
  { unfold at_least_as_critical. simpl. lia. }
  split; [exact Hadm|].
  apply (message_calls_enabled_sinks_once untouched two_sinks Info [] Error
           (PlainCloud.ValueCallable counting) here (PlainCloud.MkWorld 0 [] []) Hadm).
Defined.

Lemma legacy_loop_no_enabled {U : Type} (sink_leaves : SinkPtr → Buffer → Buffer)
    (entries : list (SinkPtr * bool)) (level : Level) (category : StringType)
    (callback : PlainCloud.Callback U) (location : Location) (w : PlainCloud.World U) :
  PlainCloud.enabled_sinks entries = [] →
  PlainCloud.message_loop sink_leaves entries level category callback location w = w.
Proof.
  induction entries as [|[sink enabled] rest IH]; intros Hnone; [done|].
  rewrite enabled_sinks_cons in Hnone. destruct enabled; [done|]. simpl. by apply IH.
Qed.

(** When the table holds no enabled sink (it is empty, or every sink in it
    is disabled) a call leaves everything as it was, at whatever level: the
    callback is not run although the level may be admitted. *)
Theorem message_without_enabled_sink {U : Type}
    (sink_leaves : SinkPtr → Buffer → Buffer) (m_sinks : gmap nat bool)
    (m_level : Level) (category : StringType) (level : Level)
    (callback : PlainCloud.Callback U) (location : Location) (w : PlainCloud.World U) :
  (∀ sink, m_sinks !! sink ≠ Some true) →
  PlainCloud.message sink_leaves m_sinks m_level category level callback location w = w.
Proof.
  intros Hnone. unfold PlainCloud.message, PlainCloud.message_over.
  destruct (Level_lt m_level level); [done|].
  apply legacy_loop_no_enabled.
  destruct (PlainCloud.enabled_sinks (map_to_list m_sinks)) as [|sink rest] eqn:Hen; [done|].
  destruct (Hnone sink). apply enabled_sinks_of_table. rewrite Hen. apply list_elem_of_here.
Qed.

Lemma message_without_enabled_sink_witness :
  (∀ sink, (<[3 := false]> ∅ : gmap nat bool) !! sink ≠ Some true)
  ∧ PlainCloud.message untouched (<[3 := false]> ∅) Trace [] Fatal
      (PlainCloud.ValueCallable counting) here (PlainCloud.MkWorld 0 [] [])
    = PlainCloud.MkWorld 0 [] [].
Proof.
  assert (∀ sink, (<[3 := false]> ∅ : gmap nat bool) !! sink ≠ Some true) as Hnone.
  { intros sink. destruct (decide (sink = 3)) as [-> | Hne].
    - by rewrite lookup_insert_eq.
    - by rewrite lookup_insert_ne, lookup_empty. }
  split; [exact Hnone|].
  apply (message_without_enabled_sink untouched (<[3 := false]> ∅) Trace [] Fatal
           (PlainCloud.ValueCallable counting) here (PlainCloud.MkWorld 0 [] []) Hnone).
Defined.

Section LegacyCalls.
Context {U : Type}.
Variable sink_leaves : SinkPtr → Buffer → Buffer.

(** A plain message is handed verbatim to every enabled sink of an
    admitted call, and nothing is invoked: the captured state is as it
    was. *)
Theorem plain_message_handed_verbatim (entries : list (SinkPtr * bool)) (m_level : Level)
    (category : StringType) (level : Level) (text : StringType) (location : Location)
    (w : PlainCloud.World U) :
  at_least_as_critical level m_level →
  let w' := PlainCloud.message_over sink_leaves entries m_level category level
              (PlainCloud.PlainMessage text) location w in
  PlainCloud.user w' = PlainCloud.user w
  ∧ PlainCloud.invocations (PlainCloud.trace w') = PlainCloud.invocations (PlainCloud.trace w)
  ∧ PlainCloud.texts_handed (PlainCloud.trace w') =
      PlainCloud.texts_handed (PlainCloud.trace w)
      ++ replicate (length (PlainCloud.enabled_sinks entries)) (Some text).
Proof.
  intros Hadm. cbv zeta. unfold PlainCloud.message_over.
  apply Level_lt_admits in Hadm as ->.
  split; [|split].
  - revert w. induction entries as [|[sink enabled] rest IH]; intros w; [done|].
    simpl. destruct enabled; [|apply IH]. by rewrite IH.
  - pose proof (legacy_loop_summary sink_leaves entries level category
                  (PlainCloud.PlainMessage text) location w) as (Hinv & _).
    rewrite Hinv. simpl. lia.
  - revert w. induction entries as [|[sink enabled] rest IH]; intros w.
    + simpl. by rewrite app_nil_r.
    + rewrite enabled_sinks_cons. simpl. destruct enabled; [|apply IH].
      rewrite IH. unfold PlainCloud.texts_handed. simpl.
      rewrite !omap_app. simpl. by rewrite <- !app_assoc.
Qed.

End LegacyCalls.

Lemma plain_message_handed_verbatim_witness :
  at_least_as_critical Info Info
  ∧ PlainCloud.texts_handed
      (PlainCloud.trace
         (PlainCloud.message_over untouched [(1, true); (2, false); (3, true)] Info [] Info
            (PlainCloud.PlainMessage [ascii_of_nat 97]) here (PlainCloud.MkWorld tt [] [])))
    = [] ++ replicate 2 (Some [ascii_of_nat 97]).
Proof.
  assert (at_least_as_critical Info Info) as Hadm.
  { unfold at_least_as_critical. simpl. lia. }
  split; [exact Hadm|].
  apply (plain_message_handed_verbatim untouched [(1, true); (2, false); (3, true)] Info []
           Info [ascii_of_nat 97] here (PlainCloud.MkWorld tt [] []) Hadm).
Defined.

(** ** Admission *)

(** Admission is monotone: a threshold that admits a level admits every
    level at least as critical, and every threshold at least as verbose
    admits what a given threshold admits. Fatal passes every threshold and
    the threshold Trace lets every level pass. Both guards agree. *)
Theorem admission_monotone (m_level m_level' level level' : Level) :
  (Level_lt m_level level = false → at_least_as_critical level' level →
   Level_lt m_level level' = false)
  ∧ (Level_lt m_level level = false → at_least_as_critical m_level m_level' →
     Level_lt m_level' level = false)
  ∧ Level_lt m_level Fatal = false
  ∧ Level_lt Trace level = false
  ∧ Level_ge m_level level = negb (Level_lt m_level level).
Proof.
  unfold Level_lt, Level_ge.
  rewrite !at_least_as_critical_value, !bool_decide_eq_false.
  split; [lia|]. split; [lia|]. split; [simpl; lia|]. split.
  - destruct level; simpl; lia.
  - apply eq_true_iff_eq. rewrite negb_true_iff, bool_decide_eq_true, bool_decide_eq_false.
    lia.
Qed.

(** ** [Logger::emit] and the table of a [Logger] *)

Section LoggerCalls.
Context {U : Type}.

Lemma emit_loop_texts (entries : list (SinkPtr * bool)) (m_level level : Level)
    (message : StringType) (location : Location) :
  Level_ge m_level level = true →
  ∀ w : U * list Logger.Event,
    let w' := Logger.emit_loop entries m_level level (λ u, (u, message)) location w in
    w'.1 = w.1
    ∧ Logger.texts_emitted w'.2 = Logger.texts_emitted w.2 ++ replicate (length entries) message.
Proof.
  intros Hlevel. induction entries as [|[sink flag] rest IH]; intros w.
  - simpl. by rewrite app_nil_r.
  - simpl. rewrite Hlevel.
    specialize (IH (w.1, w.2 ++ [Logger.Invoked; Logger.SinkEmit sink level message location])).
    cbv zeta in IH. destruct IH as [Huser Htexts]. simpl in Huser, Htexts.
    split; [exact Huser|]. rewrite Htexts. unfold Logger.texts_emitted.
    rewrite omap_app. simpl. by rewrite <- app_assoc.
Qed.

(** An admitted [emit] calls every sink of the table exactly once,
    whatever flag is stored with it, and runs the callback once for each of
    those calls, so as often as the table has sinks; on an empty table the
    callback is not run. *)
Theorem emit_calls_every_sink (m_sinks : gmap nat bool) (m_level level : Level)
    (callback : U → U * StringType) (location : Location) (e : U * list Logger.Event) :
  at_least_as_critical level m_level →
  let e' := Logger.emit m_sinks m_level level callback location e in
  (∃ called,
     Logger.sinks_called e'.2 = Logger.sinks_called e.2 ++ called
     ∧ NoDup called
     ∧ ∀ sink, sink ∈ called ↔ is_Some (m_sinks !! sink))
  ∧ Logger.invocations e'.2 = Logger.invocations e.2 + size m_sinks.
Proof.
  intros Hadm. apply Level_ge_admits in Hadm. cbv zeta. unfold Logger.emit.
  pose proof (emit_loop_enabled (map_to_list m_sinks) m_level level callback location Hadm e)
    as [Hcalled Hinv].
  split.
  - exists ((map_to_list m_sinks).*1). split; [exact Hcalled|].
    split; [apply NoDup_fst_map_to_list|].
    intros sink. rewrite list_elem_of_fmap. split.
    + intros ([s flag] & -> & Hin). exists flag. by apply elem_of_map_to_list.
    + intros [flag Hflag]. exists (sink, flag). split; [done|]. by apply elem_of_map_to_list.
  - rewrite Hinv. by rewrite length_map_to_list.
Qed.

(** [add_sink] answers whether the sink was unknown and stores [false] as
    its flag, where the constructor stores [true]; [emit] does not read the
    flag, so an admitted [emit] calls the added sink all the same, and no
    longer calls it once [remove_sink] has removed it. *)
Theorem logger_add_sink_is_served (sink : SinkPtr) (m_sinks : gmap nat bool)
    (m_level level : Level) (callback : U → U * StringType) (location : Location) (u : U) :
  at_least_as_critical level m_level →
  let added := Logger.add_sink sink m_sinks in
  let removed := Logger.remove_sink sink added.2 in
  (added.1 = true ↔ m_sinks !! sink = None)
  ∧ added.2 !! sink = Some false
  ∧ Logger.construct [sink] !! sink = Some true
  ∧ sink ∈ Logger.sinks_called (Logger.emit added.2 m_level level callback location (u, [])).2
  ∧ removed.1 = true
  ∧ sink ∉ Logger.sinks_called (Logger.emit removed.2 m_level level callback location (u, [])).2.
Proof.
  intros Hadm. cbv zeta. unfold Logger.add_sink, Logger.remove_sink. cbn [fst snd].
  split; [apply bool_decide_eq_true|].
  split; [apply lookup_insert_eq|].
  split.
  { unfold Logger.construct. cbn [foldl]. unfold emplace.
    rewrite lookup_empty. apply lookup_insert_eq. }
  split; [|split].
  - destruct (emit_calls_every_sink (<[sink := false]> m_sinks) m_level level callback
                location (u, []) Hadm) as [(called & -> & _ & Hiff) _].
    simpl. apply Hiff. rewrite lookup_insert_eq. by exists false.
  - apply bool_decide_eq_true. rewrite lookup_insert_eq. by exists false.
  - destruct (emit_calls_every_sink (delete sink (<[sink := false]> m_sinks)) m_level level
                callback location (u, []) Hadm) as [(called & -> & _ & Hiff) _].
    simpl. rewrite Hiff, lookup_delete_eq. by intros [? ?].
Qed.

(** [emit] of a message that is not invocable hands that message to every
    sink of the table when the level is admitted, and leaves the captured
    state alone; [info] is that call at level Info, so it reaches the sinks
    exactly when the threshold is Info, Debug or Trace. *)
Theorem emit_message_reaches_all (m_sinks : gmap nat bool) (m_level level : Level)
    (message : StringType) (location : Location) (e : U * list Logger.Event) :
  let e' := Logger.emit_message m_sinks m_level level message location e in
  let i := Logger.info m_sinks m_level message location e in
  e'.1 = e.1
  ∧ Logger.texts_emitted e'.2 =
      Logger.texts_emitted e.2
      ++ (if bool_decide (at_least_as_critical level m_level)
          then replicate (size m_sinks) message else [])
  ∧ Logger.texts_emitted i.2 =
      Logger.texts_emitted e.2
      ++ (if bool_decide (m_level ∈ [Info; Debug; Trace])
          then replicate (size m_sinks) message else []).
Proof.
  assert (∀ lvl,
            let r := Logger.emit_message m_sinks m_level lvl message location e in
            r.1 = e.1
            ∧ Logger.texts_emitted r.2 =
                Logger.texts_emitted e.2
                ++ (if bool_decide (at_least_as_critical lvl m_level)
                    then replicate (size m_sinks) message else [])) as Hany.
  { intros lvl. cbv zeta. unfold Logger.emit_message, Logger.emit.
    case_bool_decide as Hadm.
    - apply Level_ge_admits in Hadm.
      pose proof (emit_loop_texts (map_to_list m_sinks) m_level lvl message location Hadm e)
        as [Huser Htexts].
      split; [exact Huser|]. rewrite Htexts. by rewrite length_map_to_list.
    - rewrite emit_loop_disabled.
      + by rewrite app_nil_r.
      + destruct (Level_ge m_level lvl) eqn:Hge; [|done].
        by apply Level_ge_admits in Hge. }
  cbv zeta. split; [apply Hany|]. split; [apply Hany|].
  unfold Logger.info. destruct (Hany Info) as [_ ->]. f_equal.
  assert (bool_decide (at_least_as_critical Info m_level)
          = bool_decide (m_level ∈ [Info; Debug; Trace])) as ->; [|done].
  by destruct m_level.
Qed.

End LoggerCalls.

Lemma emit_calls_every_sink_witness :
  at_least_as_critical Info Info
  ∧ Logger.invocations (Logger.emit two_sinks Info Info counting here (0, [])).2
    = Logger.invocations [] + size two_sinks.
Proof.
  assert (at_least_as_critical Info Info) as Hadm.
  { unfold at_least_as_critical. simpl. lia. }
  split; [exact Hadm|].
  apply (emit_calls_every_sink two_sinks Info Info counting here (0, []) Hadm).
Defined.

Lemma logger_add_sink_is_served_witness :
  at_least_as_critical Info Info
  ∧ (Logger.add_sink 5 two_sinks).2 !! 5 = Some false
  ∧ 5 ∈ Logger.sinks_called
          (Logger.emit (Logger.add_sink 5 two_sinks).2 Info Info counting here (0, [])).2.
Proof.
  assert (at_least_as_critical Info Info) as Hadm.
  { unfold at_least_as_critical. simpl. lia. }
  split; [exact Hadm|].
  pose proof (logger_add_sink_is_served 5 two_sinks Info Info counting here 0 Hadm) as H.
  cbv zeta in H. split; apply H.
Defined.

(** ** Calls of the second driver *)

Section SlimLogCalls.
Context {U : Type}.
Variable threshold : LoggerPtr → Level.

(** The sinks a call reaches and the record each is handed. *)
Lemma message_over_sink_calls (entries : list (SinkPtr * LoggerPtr)) (level : Level)
    (callback : SlimLog.Callback U) (category : StringType) (location : Location)
    (thread_id : nat) (now : nat * nat) (u : U) :
  SlimLog.sink_calls
    (SlimLog.trace (SlimLog.message_over threshold entries level callback category location
                      thread_id now u))
  = if SlimLog.is_void callback then []
    else (λ entry,
            (entry.1,
             SlimLog.record
               (SlimLog.evaluate callback
                  (SlimLog.initial level category location thread_id now u)).1))
           <$> SlimLog.admissible threshold entries level.
Proof.
  rewrite message_over_result. cbv zeta.
  destruct (SlimLog.admissible threshold entries level) as [|first rest].
  - by destruct (SlimLog.is_void callback).
  - cbv beta iota. destruct (SlimLog.is_void callback) eqn:Hvoid.
    + rewrite evaluate_trace. by destruct callback.
    + cbn [SlimLog.trace]. rewrite slim_sink_calls_deliveries, evaluate_trace.
      replace (SlimLog.sink_calls _) with (@nil (SinkPtr * SlimLog.LogRecord)); [done|].
      by destruct (SlimLog.is_callable callback).
Qed.

(** When no owner of an entry admits the level (in particular when the
    table is empty) the call does nothing, whatever the callback is: it is
    not evaluated, no sink is called, the captured state is as it was. *)
Theorem message_free_when_nothing_admits (entries : list (SinkPtr * LoggerPtr))
    (level : Level) (callback : SlimLog.Callback U) (category : StringType)
    (location : Location) (thread_id : nat) (now : nat * nat) (u : U) :
  (∀ sink owner, (sink, owner) ∈ entries → ¬ at_least_as_critical level (threshold owner)) →
  let w := SlimLog.message_over threshold entries level callback category location
             thread_id now u in
  SlimLog.trace w = [] ∧ SlimLog.user w = u ∧ SlimLog.buffer w = []
  ∧ SlimLog.invocations (SlimLog.trace w) = 0.
Proof.
  intros Hnone. cbv zeta. rewrite message_over_result. cbv zeta.
  destruct (SlimLog.admissible threshold entries level) as [|[sink owner] rest] eqn:Hadm;
    [done|].
  destruct (Hnone sink owner).
  - assert ((sink, owner) ∈ SlimLog.admissible threshold entries level) as Hin
      by (rewrite Hadm; apply list_elem_of_here).
    by apply list_elem_of_filter in Hin as [_ Hin].
  - assert ((sink, owner) ∈ SlimLog.admissible threshold entries level) as Hin
      by (rewrite Hadm; apply list_elem_of_here).
    apply list_elem_of_filter in Hin as [Hen _]. by apply level_enabled_admits in Hen.
Qed.

(** Every sink a call reaches is handed one and the same record: the
    level, location, category, thread id and time of the call, and as
    message what the callback wrote into the empty buffer, what it
    returned, or the plain message. *)
Theorem record_carries_the_call (entries : list (SinkPtr * LoggerPtr)) (level : Level)
    (callback : SlimLog.Callback U) (category : StringType) (location : Location)
    (thread_id : nat) (now : nat * nat) (u : U) :
  let w := SlimLog.message_over threshold entries level callback category location
             thread_id now u in
  let text := match callback with
              | SlimLog.BufferWriter f => (f u []).2
              | SlimLog.ValueCallable f => (f u).2
              | SlimLog.PlainMessage message => message
              | SlimLog.VoidCallable _ => []
              end in
  Forall (λ call, call.2 = SlimLog.MkRecord level location category thread_id now text)
    (SlimLog.sink_calls (SlimLog.trace w)).
Proof.
  cbv zeta. rewrite message_over_sink_calls.
  destruct callback as [f|f|f|message]; simpl; [| constructor | |].
  - apply Forall_fmap, Forall_forall. intros entry _. simpl. by destruct (f u []).
  - apply Forall_fmap, Forall_forall. intros entry _. simpl. by destruct (f u).
  - apply Forall_fmap, Forall_forall. by intros entry _.
Qed.

(** A call on the effective-sink table of a node reaches no sink twice,
    and, with a callback that yields a message, reaches exactly the sinks
    of the table whose recorded owner admits the level. *)
Theorem message_reaches_each_sink_once (m_effective_sinks : gmap nat nat) (level : Level)
    (callback : SlimLog.Callback U) (category : StringType) (location : Location)
    (thread_id : nat) (now : nat * nat) (u : U) :
  let w := SlimLog.message threshold m_effective_sinks level callback category location
             thread_id now u in
  NoDup (SlimLog.sink_calls (SlimLog.trace w)).*1
  ∧ (SlimLog.is_void callback = false →
     ∀ sink, sink ∈ (SlimLog.sink_calls (SlimLog.trace w)).*1 ↔
             ∃ owner, m_effective_sinks !! sink = Some owner
                      ∧ at_least_as_critical level (threshold owner)).
Proof.
  cbv zeta. unfold SlimLog.message. rewrite message_over_sink_calls.
  destruct (SlimLog.is_void callback).
  - split; [constructor | done].
  - rewrite <- list_fmap_compose.
    assert (∀ l : list (SinkPtr * LoggerPtr),
              (fst ∘ (λ entry : SinkPtr * LoggerPtr,
                        (entry.1,
                         SlimLog.record
                           (SlimLog.evaluate callback
                              (SlimLog.initial level category location thread_id now u)).1)))
                <$> l = l.*1) as -> by done.
    split.
    + apply (sublist_NoDup _ ((map_to_list m_effective_sinks).*1)).
      * apply NoDup_fst_map_to_list.
      * apply fmap_sublist, sublist_filter.
    + intros _ sink. unfold SlimLog.admissible. rewrite list_elem_of_fmap. split.
      * intros ([s owner] & -> & Hin). apply list_elem_of_filter in Hin as [Hen Hin].
        exists owner. split; [by apply elem_of_map_to_list | by apply level_enabled_admits].
      * intros (owner & Hlookup & Hadm). exists (sink, owner). split; [done|].
        apply list_elem_of_filter.
        split; [by apply level_enabled_admits | by apply elem_of_map_to_list].
Qed.

End SlimLogCalls.

Lemma message_free_when_nothing_admits_witness :
  let threshold : LoggerPtr → Level := λ _, Warning in
  (∀ sink owner, (sink, owner) ∈ [(1, 10); (2, 20)] →
                 ¬ at_least_as_critical Debug (threshold owner))
  ∧ SlimLog.user
      (SlimLog.message_over threshold [(1, 10); (2, 20)] Debug
         (SlimLog.ValueCallable counting) [] here 0 (0, 0) 0) = 0.
Proof.
  assert (∀ sink owner : nat, (sink, owner) ∈ [(1, 10); (2, 20)] →
                        ¬ at_least_as_critical Debug ((λ _ : LoggerPtr, Warning) owner)) as Hnone.
  { intros sink owner _. unfold at_least_as_critical. simpl. lia. }
  split; [exact Hnone|].
  apply (message_free_when_nothing_admits (λ _, Warning) [(1, 10); (2, 20)] Debug
           (SlimLog.ValueCallable counting) [] here 0 (0, 0) 0 Hnone).
Defined.

(** ** Successive records through the stream sink *)

Section StreamSinkCalls.
Context {Pattern RecordType : Type}.
Variable render : Pattern → RecordType → list ascii.

Lemma ostream_message_step (sink : OStreamSink.Sink (Pattern:=Pattern)) (buffer : Buffer)
    (record : RecordType) :
  OStreamSink.message render sink buffer record =
    (OStreamSink.MkSink (OStreamSink.m_pattern sink)
       (OStreamSink.m_ostream sink
          ++ [OStreamSink.Write (render (OStreamSink.m_pattern sink) record
                                   ++ [OStreamSink.newline])]),
     buffer).
Proof.
  unfold OStreamSink.message, OStreamSink.ostream_write, OStreamSink.format,
    OStreamSink.resize.
  rewrite <- (app_assoc buffer). rewrite drop_app_length.
  replace (length (buffer ++ _) - length buffer)
    with (length (render (OStreamSink.m_pattern sink) record ++ [OStreamSink.newline]))
    by (rewrite !length_app; lia).
  rewrite firstn_all, take_app_length.
  replace (length buffer - _) with 0 by (rewrite !length_app; lia).
  simpl. by rewrite app_nil_r.
Qed.

(** Records sent one after the other through the same sink and the same
    buffer reach the stream as their rendered lines, in order, one write
    and one line terminator each; the buffer is handed back as it was,
    whatever it held. *)
Theorem ostream_sink_writes_records_in_order (sink : OStreamSink.Sink (Pattern:=Pattern))
    (buffer : Buffer) (records : list RecordType) :
  let after := foldl (λ state record, OStreamSink.message render state.1 state.2 record)
                 (sink, buffer) records in
  after.2 = buffer
  ∧ OStreamSink.m_pattern after.1 = OStreamSink.m_pattern sink
  ∧ OStreamSink.written (OStreamSink.m_ostream after.1) =
      OStreamSink.written (OStreamSink.m_ostream sink)
      ++ concat ((λ record, render (OStreamSink.m_pattern sink) record
                              ++ [OStreamSink.newline]) <$> records)
  ∧ length (OStreamSink.m_ostream after.1) =
      length (OStreamSink.m_ostream sink) + length records.
Proof.
  cbv zeta. revert sink.
  induction records as [|record records IH]; intros sink.
  - simpl. rewrite app_nil_r. repeat split; lia.
  - cbn [foldl fst snd]. rewrite ostream_message_step.
    destruct (IH (OStreamSink.MkSink (OStreamSink.m_pattern sink)
                    (OStreamSink.m_ostream sink
                       ++ [OStreamSink.Write (render (OStreamSink.m_pattern sink) record
                                                ++ [OStreamSink.newline])])))
      as (Hbuf & Hpat & Hwritten & Hlen).
    cbn [OStreamSink.m_pattern OStreamSink.m_ostream] in Hpat, Hwritten, Hlen.
    split; [exact Hbuf|]. split; [exact Hpat|]. split.
    + rewrite Hwritten, written_snoc. simpl. by rewrite <- !app_assoc.
    + rewrite Hlen, length_app. simpl. lia.
Qed.

End StreamSinkCalls.

(** ** Iteration order and created sinks *)

(** The hash table yields its entries in no particular order, and the
    second driver does not depend on it: two orders of the same entries
    leave the same captured state, buffer and record, and reach the same
    sinks with the same records, up to the order of the calls. *)
Theorem message_independent_of_iteration_order {U : Type} (threshold : LoggerPtr → Level)
    (entries entries' : list (SinkPtr * LoggerPtr)) (level : Level)
    (callback : SlimLog.Callback U) (category : StringType) (location : Location)
    (thread_id : nat) (now : nat * nat) (u : U) :
  entries ≡ₚ entries' →
  let w := SlimLog.message_over threshold entries level callback category location
             thread_id now u in
  let w' := SlimLog.message_over threshold entries' level callback category location
              thread_id now u in
  SlimLog.user w = SlimLog.user w'
  ∧ SlimLog.buffer w = SlimLog.buffer w'
  ∧ SlimLog.record w = SlimLog.record w'
  ∧ SlimLog.invocations (SlimLog.trace w) = SlimLog.invocations (SlimLog.trace w')
  ∧ SlimLog.sink_calls (SlimLog.trace w) ≡ₚ SlimLog.sink_calls (SlimLog.trace w').
Proof.
  intros Hperm. cbv zeta.
  assert (SlimLog.admissible threshold entries level
          ≡ₚ SlimLog.admissible threshold entries' level) as Hadm.
  { unfold SlimLog.admissible. by rewrite Hperm. }
  rewrite !message_over_sink_calls, !message_over_result. cbv zeta.
  destruct (SlimLog.admissible threshold entries level) as [|first rest] eqn:Hl;
    destruct (SlimLog.admissible threshold entries' level) as [|first' rest'] eqn:Hr.
  - by destruct (SlimLog.is_void callback).
  - by apply Permutation_nil_l in Hadm.
  - by apply Permutation_nil_r in Hadm.
  - cbv beta iota. destruct (SlimLog.is_void callback).
    + done.
    + cbn [SlimLog.user SlimLog.buffer SlimLog.record SlimLog.trace].
      rewrite !slim_invocations_deliveries.
      repeat split; try done. by rewrite Hadm.
Qed.

Lemma message_independent_of_iteration_order_witness :
  let threshold : LoggerPtr → Level := λ _, Info in
  [(1, 10); (2, 20)] ≡ₚ [(2, 20); (1, 10)]
  ∧ SlimLog.user
      (SlimLog.message_over threshold [(1, 10); (2, 20)] Info
         (SlimLog.ValueCallable counting) [] here 0 (0, 0) 0)
    = SlimLog.user
        (SlimLog.message_over threshold [(2, 20); (1, 10)] Info
           (SlimLog.ValueCallable counting) [] here 0 (0, 0) 0).
Proof.
  assert ([(1, 10); (2, 20)] ≡ₚ [(2, 20); (1, 10)]) as Hperm by apply Permutation_swap.
  split; [exact Hperm|].
  apply (message_independent_of_iteration_order (λ _, Info) [(1, 10); (2, 20)]
           [(2, 20); (1, 10)] Info (SlimLog.ValueCallable counting) [] here 0 (0, 0) 0 Hperm).
Defined.

(** The pointer [add_sink<T>] returns is a key of the table: the created
    sink is enabled at once, can be disabled and removed through that
    pointer, and no other entry is touched by its creation. *)
Theorem created_sink_is_known (created : SinkPtr) (m_sinks : gmap nat bool) :
  let result := PlainCloud.add_sink_created created m_sinks in
  PlainCloud.sink_enabled result.1 result.2 = true
  ∧ (PlainCloud.set_sink_enabled result.1 false result.2).1 = true
  ∧ PlainCloud.sink_enabled result.1
      (PlainCloud.set_sink_enabled result.1 false result.2).2 = false
  ∧ (PlainCloud.remove_sink result.1 result.2).1 = true
  ∧ (∀ other, other ≠ created → result.2 !! other = m_sinks !! other)
  ∧ result.2 = (PlainCloud.add_sink created m_sinks).2.
Proof.
  unfold PlainCloud.add_sink_created, PlainCloud.sink_enabled, PlainCloud.set_sink_enabled,
    PlainCloud.remove_sink, PlainCloud.add_sink.
  cbn [fst snd]. rewrite !lookup_insert_eq. cbn [fst snd]. rewrite lookup_insert_eq.
  split; [done|]. split; [done|]. split; [done|]. split.
  - apply bool_decide_eq_true. by exists true.
  - split; [|done]. intros other Hne. by apply lookup_insert_ne.
Qed.

(** ** Calls that throw, and the buffer between the calls of a thread *)

Section ExceptionCalls.
Context {U : Type}.

(** With a callback and sinks that never throw, the call is the call of
    the first model, and it returns. *)
Lemma message_never_throws (sink_leaves : SinkPtr → Buffer → Buffer)
    (entries : list (SinkPtr * bool)) (m_level : Level) (category : StringType)
    (level : Level) (callback : PlainCloud.Callback U) (location : Location)
    (w : PlainCloud.World U) :
  Exceptions.message_over (λ sink b, (sink_leaves sink b, true)) entries m_level category
    level (Exceptions.never_throws callback) location w
  = Exceptions.Returned
      (PlainCloud.message_over sink_leaves entries m_level category level callback
         location w).
Proof.
  unfold Exceptions.message_over, PlainCloud.message_over.
  destruct (Level_lt m_level level); [done|].
  revert w. induction entries as [|[sink enabled] rest IH]; intros w; [done|].
  simpl. destruct enabled; [|apply IH].
  assert (Exceptions.serve (λ sink b, (sink_leaves sink b, true)) sink level category
            (Exceptions.never_throws callback) location w
          = Exceptions.Returned
              (PlainCloud.serve sink_leaves sink level category callback location w)) as ->.
  { unfold Exceptions.serve, PlainCloud.serve, Exceptions.sink_message,
      PlainCloud.sink_message.
    destruct callback as [f|f|f|text]; simpl; try done.
    - by destruct (f _ _).
    - by destruct (f _). }
  apply IH.
Qed.

Variable sink_does : SinkPtr → Buffer → Buffer * bool.

(** Serving one sink from an empty buffer: the sink, if it is reached, is
    handed what the callback left of the empty buffer, and the buffer is
    empty again if the callback and the sink returned. *)
Lemma serve_on_empty_buffer (P : Buffer → Prop) (sink : SinkPtr) (level : Level)
    (category : StringType) (callback : Exceptions.Callback U) (location : Location)
    (w : PlainCloud.World U) :
  (∀ u, P (Exceptions.produced callback u [])) →
  PlainCloud.buffer w = [] →
  Forall P (PlainCloud.buffers_handed (PlainCloud.trace w)) →
  match Exceptions.serve sink_does sink level category callback location w with
  | Exceptions.Returned w' =>
      PlainCloud.buffer w' = []
      ∧ Forall P (PlainCloud.buffers_handed (PlainCloud.trace w'))
  | Exceptions.Threw w' => Forall P (PlainCloud.buffers_handed (PlainCloud.trace w'))
  end.
Proof.
  intros HP Hempty Hall.
  assert (∀ text u b tr,
            Forall P (PlainCloud.buffers_handed tr) → P b →
            match
              match Exceptions.sink_message sink_does sink level category text location
                      (PlainCloud.MkWorld u b tr) with
              | Exceptions.Returned w2 =>
                  Exceptions.Returned
                    (PlainCloud.MkWorld (U:=U) (PlainCloud.user w2) []
                       (PlainCloud.trace w2 ++ [PlainCloud.BufferReset]))
              | Exceptions.Threw w2 => Exceptions.Threw w2
              end
            with
            | Exceptions.Returned w' =>
                PlainCloud.buffer w' = []
                ∧ Forall P (PlainCloud.buffers_handed (PlainCloud.trace w'))
            | Exceptions.Threw w' => Forall P (PlainCloud.buffers_handed (PlainCloud.trace w'))
            end) as Hsink.
  { intros text u b tr Htr Hb. unfold Exceptions.sink_message. simpl.
    destruct (sink_does sink b) as [after [|]]; simpl;
      unfold PlainCloud.buffers_handed in *; rewrite ?omap_app; simpl.
    - split; [done|]. rewrite app_nil_r. apply Forall_app. split; [done|].
      by apply Forall_singleton.
    - apply Forall_app. split; [done|]. by apply Forall_singleton. }
  assert (∀ tr, Forall P (PlainCloud.buffers_handed tr) →
                Forall P (PlainCloud.buffers_handed (tr ++ [PlainCloud.Invoked]))) as Hinv.
  { intros tr Htr. unfold PlainCloud.buffers_handed. rewrite omap_app. simpl.
    by rewrite app_nil_r. }
  unfold Exceptions.serve. destruct w as [u0 b0 tr0]. simpl in *. subst b0.
  destruct callback as [f|f|f|text].
  - specialize (HP u0). simpl in HP.
    destruct (f u0 []) as [[u b] [|]]; simpl in *.
    + apply Hsink; [by apply Hinv | done].
    + by apply Hinv.
  - specialize (HP u0). simpl in HP.
    destruct (f u0) as [u [|]]; simpl.
    + apply Hsink; [by apply Hinv | done].
    + by apply Hinv.
  - specialize (HP u0). simpl in HP.
    destruct (f u0) as [u [text|]]; simpl.
    + apply Hsink; [by apply Hinv | done].
    + by apply Hinv.
  - specialize (HP u0). simpl in HP. by apply Hsink.
Qed.

Lemma call_on_empty_buffer (P : Buffer → Prop) (c : Exceptions.Call U)
    (w : PlainCloud.World U) :
  (∀ u, P (Exceptions.produced (Exceptions.c_callback c) u [])) →
  PlainCloud.buffer w = [] →
  Forall P (PlainCloud.buffers_handed (PlainCloud.trace w)) →
  match Exceptions.call sink_does c w with
  | Exceptions.Returned w' =>
      PlainCloud.buffer w' = []
      ∧ Forall P (PlainCloud.buffers_handed (PlainCloud.trace w'))
  | Exceptions.Threw w' => Forall P (PlainCloud.buffers_handed (PlainCloud.trace w'))
  end.
Proof.
  intros HP. unfold Exceptions.call, Exceptions.message, Exceptions.message_over.
  destruct (Level_lt (Exceptions.c_m_level c) (Exceptions.c_level c)); [done|].
  generalize (map_to_list (Exceptions.c_sinks c)) as entries.
  intros entries. revert w.
  induction entries as [|[sink enabled] rest IH]; intros w Hempty Hall; [done|].
  simpl. destruct enabled; [|by apply IH].
  pose proof (serve_on_empty_buffer P sink (Exceptions.c_level c) (Exceptions.c_category c)
                (Exceptions.c_callback c) (Exceptions.c_location c) w HP Hempty Hall)
    as Hserve.
  destruct (Exceptions.serve sink_does sink (Exceptions.c_level c) (Exceptions.c_category c)
              (Exceptions.c_callback c) (Exceptions.c_location c) w) as [w'|w'].
  - destruct Hserve as [Hbuf Hhanded]. by apply IH.
  - done.
Qed.

(** The buffer of [buffer()] outlives the calls of a thread. For as long
    as the calls return, no call sees what an earlier one wrote: whatever
    drivers the calls are made on and whatever the sinks do to the buffer
    they are handed, the buffer is empty after the last call that returned,
    and every sink called so far, those of a call that ends in an exception
    included, was handed what the callback of some call of the sequence
    left of an empty buffer. *)
Theorem thread_buffer_empty_between_calls (calls : list (Exceptions.Call U)) (u : U) :
  let outcome := Exceptions.message_all sink_does calls (PlainCloud.MkWorld u [] []) in
  (∀ w, outcome = Exceptions.Returned w → PlainCloud.buffer w = [])
  ∧ Forall (λ handed, ∃ c u', c ∈ calls
                              ∧ handed = Exceptions.produced (Exceptions.c_callback c) u' [])
      (PlainCloud.buffers_handed (PlainCloud.trace (Exceptions.state_of outcome))).
Proof.
  cbv zeta.
  set (P := λ handed : Buffer,
         ∃ c u', c ∈ calls ∧ handed = Exceptions.produced (Exceptions.c_callback c) u' []).
  assert (∀ todo before w,
            calls = before ++ todo →
            PlainCloud.buffer w = [] →
            Forall P (PlainCloud.buffers_handed (PlainCloud.trace w)) →
            match Exceptions.message_all sink_does todo w with
            | Exceptions.Returned w' =>
                PlainCloud.buffer w' = []
                ∧ Forall P (PlainCloud.buffers_handed (PlainCloud.trace w'))
            | Exceptions.Threw w' =>
                Forall P (PlainCloud.buffers_handed (PlainCloud.trace w'))
            end) as Hgen.
  { induction todo as [|c todo IH]; intros before w Hsplit Hempty Hall; [done|].
    cbn [Exceptions.message_all].
    assert (∀ u', P (Exceptions.produced (Exceptions.c_callback c) u' [])) as HP.
    { intros u'. exists c, u'. split; [|done]. rewrite Hsplit.
      apply elem_of_app. right. apply list_elem_of_here. }
    pose proof (call_on_empty_buffer P c w HP Hempty Hall) as Hcall.
    destruct (Exceptions.call sink_does c w) as [w'|w']; [|done].
    destruct Hcall as [Hbuf Hhanded].
    apply (IH (before ++ [c])); [|done|done]. by rewrite <- app_assoc. }
  specialize (Hgen calls [] (PlainCloud.MkWorld u [] []) eq_refl eq_refl).
  cbn [PlainCloud.trace PlainCloud.buffers_handed omap] in Hgen.
  specialize (Hgen (Forall_nil_2 _)).
  destruct (Exceptions.message_all sink_does calls (PlainCloud.MkWorld u [] [])) as [w'|w'].
  - destruct Hgen as [Hbuf Hhanded]. split; [|done]. intros w [= <-]. exact Hbuf.
  - split; [done|]. exact Hgen.
Qed.

End ExceptionCalls.

(** Once a call has thrown, the reset it skipped is missing: here sink 1
    throws after the callback wrote "a"; the call ends in the exception
    with "a" in the buffer, and the next call of the thread, with the plain
    message "b" for sink 2, hands sink 2 the stale "a". *)
Example stale_text_after_a_throw :
  let a := ascii_of_nat 97 in
  let b := ascii_of_nat 98 in
  let first := Exceptions.call first_throws
                 (Exceptions.MkCall one_sink Info [] Info
                    (Exceptions.never_throws (appending a)) here)
                 (PlainCloud.MkWorld tt [] []) in
  let second := Exceptions.call first_throws
                  (Exceptions.MkCall (<[2 := true]> ∅) Info [] Info
                     (Exceptions.PlainMessage [b]) here)
                  (Exceptions.state_of first) in
  first = Exceptions.Threw
            (PlainCloud.MkWorld tt [a]
               [PlainCloud.Invoked; PlainCloud.SinkMessage 1 [a] Info [] None here])
  ∧ PlainCloud.buffers_handed (PlainCloud.trace (Exceptions.state_of second)) = [[a]; [a]].
Proof. by vm_compute. Qed.

(** ** Threads on the driver of [MultiThreadedPolicy] *)

Section ThreadSteps.
Context {U : Type}.
Variable sink_leaves : SinkPtr → Buffer → Buffer.

(** The three steps of a thread at one sink are the body of the loop of
    the single-threaded driver. *)
Lemma serve_in_three_steps (sink : SinkPtr) (level : Level) (category : StringType)
    (callback : PlainCloud.Callback U) (location : Location) (w : PlainCloud.World U) :
  PlainCloud.serve sink_leaves sink level category callback location w =
    MultiThreaded.reset_step
      (PlainCloud.sink_message sink_leaves sink level category
         (MultiThreaded.callback_step callback w).2 location
         (MultiThreaded.callback_step callback w).1).
Proof.
  unfold PlainCloud.serve, MultiThreaded.reset_step, MultiThreaded.callback_step.
  destruct callback as [f|f|f|text]; simpl; try done.
  - by destruct (f _ _).
  - by destruct (f _).
Qed.

Lemma message_loop_enabled_only (entries : list (SinkPtr * bool)) (level : Level)
    (category : StringType) (callback : PlainCloud.Callback U) (location : Location) :
  ∀ w : PlainCloud.World U,
    PlainCloud.message_loop sink_leaves entries level category callback location w =
    PlainCloud.message_loop sink_leaves
      ((λ sink, (sink, true)) <$> PlainCloud.enabled_sinks entries)
      level category callback location w.
Proof.
  induction entries as [|[sink enabled] rest IH]; intros w; [done|].
  rewrite enabled_sinks_cons. destruct enabled; simpl; apply IH.
Qed.

(** Three consecutive steps of a thread at a sink, with no other thread
    moving in between, do what the body of the loop does. *)
Lemma run_three_steps (m_level : Level) (category : StringType) (level : Level)
    (callback : PlainCloud.Callback U) (location : Location) (sink : SinkPtr)
    (rest : list SinkPtr) (u : U) (s : MultiThreaded.Shared) (schedule : list nat) :
  let request := MultiThreaded.Message m_level category level callback location in
  let w := PlainCloud.serve sink_leaves sink level category callback location
             (PlainCloud.MkWorld u (MultiThreaded.buffer s) (MultiThreaded.trace s)) in
  MultiThreaded.run sink_leaves (0 :: 0 :: 0 :: schedule)
    [MultiThreaded.MkThread request (MultiThreaded.AtCallback (sink :: rest)) u] s
  = MultiThreaded.run sink_leaves schedule
      [MultiThreaded.MkThread request (MultiThreaded.AtCallback rest) (PlainCloud.user w)]
      (MultiThreaded.MkShared (MultiThreaded.m_mutex s) (MultiThreaded.m_sinks s)
         (PlainCloud.buffer w) (PlainCloud.trace w)).
Proof.
  cbv zeta. destruct s as [mutex table b tr].
  destruct callback as [f|f|f|text]; cbv.
  - by destruct (f u b).
  - done.
  - by destruct (f u).
  - done.
Qed.

(** A thread that holds the read lock and is not disturbed serves its
    sinks as the loop of the single-threaded driver does, and releases the
    lock. *)
Lemma lone_emitter_serves (m_level : Level) (category : StringType) (level : Level)
    (callback : PlainCloud.Callback U) (location : Location) (todo : list SinkPtr) :
  ∀ (u : U) (s : MultiThreaded.Shared),
    let request := MultiThreaded.Message m_level category level callback location in
    let w := PlainCloud.message_loop sink_leaves ((λ sink, (sink, true)) <$> todo)
               level category callback location
               (PlainCloud.MkWorld u (MultiThreaded.buffer s) (MultiThreaded.trace s)) in
    MultiThreaded.run sink_leaves (replicate (3 * length todo + 1) 0)
      [MultiThreaded.MkThread request (MultiThreaded.AtCallback todo) u] s
    = Some ([MultiThreaded.MkThread request MultiThreaded.Finished (PlainCloud.user w)],
            MultiThreaded.MkShared (MultiThreaded.read_unlock (MultiThreaded.m_mutex s))
              (MultiThreaded.m_sinks s) (PlainCloud.buffer w) (PlainCloud.trace w)).
Proof.
  induction todo as [|sink rest IH]; intros u s.
  - done.
  - cbv zeta. replace (3 * length (sink :: rest) + 1)
      with (S (S (S (3 * length rest + 1)))) by (simpl; lia).
    cbn [replicate]. rewrite run_three_steps. cbv zeta.
    rewrite IH. done.
Qed.

(** A thread that runs alone through [message] on a free mutex does what
    the single-threaded driver does, and leaves the mutex free. *)
Lemma lone_emitter_is_sequential (m_sinks : gmap nat bool) (m_level : Level)
    (category : StringType) (level : Level) (callback : PlainCloud.Callback U)
    (location : Location) (u : U) (b : Buffer) (tr : list PlainCloud.Event) :
  let request := MultiThreaded.Message m_level category level callback location in
  let w := PlainCloud.message sink_leaves m_sinks m_level category level callback location
             (PlainCloud.MkWorld u b tr) in
  let served := if Level_lt m_level level then 0
                else length (PlainCloud.enabled_sinks (map_to_list m_sinks)) in
  MultiThreaded.run sink_leaves (replicate (3 * served + 2) 0)
    [MultiThreaded.MkThread request MultiThreaded.Start u]
    (MultiThreaded.MkShared MultiThreaded.free m_sinks b tr)
  = Some ([MultiThreaded.MkThread request MultiThreaded.Finished (PlainCloud.user w)],
          MultiThreaded.MkShared MultiThreaded.free m_sinks (PlainCloud.buffer w)
            (PlainCloud.trace w)).
Proof.
  cbv zeta. unfold PlainCloud.message, PlainCloud.message_over.
  replace (3 * _ + 2) with (S (3 * (if Level_lt m_level level then 0
                                    else length (PlainCloud.enabled_sinks
                                                   (map_to_list m_sinks))) + 1)) by lia.
  cbn [replicate MultiThreaded.run lookup list_lookup].
  unfold MultiThreaded.step at 1.
  cbn [MultiThreaded.request MultiThreaded.position MultiThreaded.m_mutex MultiThreaded.free
       MultiThreaded.read_lock MultiThreaded.writer MultiThreaded.readers
       MultiThreaded.m_sinks MultiThreaded.buffer MultiThreaded.trace MultiThreaded.captured
       insert list_insert list_alter].
  destruct (Level_lt m_level level).
  - done.
  - rewrite lone_emitter_serves. cbn. by rewrite <- message_loop_enabled_only.
Qed.

(** The locks keep structural change and emission apart: while a thread
    is inside a mutator no emitter gets past its [ReadLock], and while an
    emitter is inside [message] no mutator gets past its [WriteLock]; but
    an emitter is not kept out by another emitter. *)
Lemma locks_separate_mutation_from_emission (t : MultiThreaded.Thread U)
    (s : MultiThreaded.Shared) :
  MultiThreaded.position t = MultiThreaded.Start →
  (MultiThreaded.writer (MultiThreaded.m_mutex s) = true →
   MultiThreaded.step sink_leaves t s = None)
  ∧ (0 < MultiThreaded.readers (MultiThreaded.m_mutex s) →
     match MultiThreaded.request t with
     | MultiThreaded.Message _ _ _ _ _ =>
         MultiThreaded.writer (MultiThreaded.m_mutex s) = false →
         is_Some (MultiThreaded.step sink_leaves t s)
     | _ => MultiThreaded.step sink_leaves t s = None
     end).
Proof.
  intros Hstart. unfold MultiThreaded.step. rewrite Hstart.
  unfold MultiThreaded.read_lock, MultiThreaded.write_lock. split.
  - intros ->. by destruct (MultiThreaded.request t).
  - intros Hreaders. destruct (MultiThreaded.request t).
    + intros ->. by eexists.
    + destruct (MultiThreaded.writer _); [done|]. by rewrite bool_decide_eq_false_2 by lia.
    + destruct (MultiThreaded.writer _); [done|]. by rewrite bool_decide_eq_false_2 by lia.
    + destruct (MultiThreaded.writer _); [done|]. by rewrite bool_decide_eq_false_2 by lia.
Qed.

End ThreadSteps.

(** C6. Under the multi-threaded policy the mutators take the exclusive
    lock and [message] the shared one, but the buffer of [buffer()] is one
    [static] object for all threads and the shared lock admits two emitters
    at once. Two threads emit through the same driver, one writing "a" and
    one writing "b": run one after the other, the sink is handed "a" and
    then "b"; in the schedule in which both take the read lock and both
    callbacks run before the first sink is called, both hold the lock
    together, the sink is handed "ab" for the first record and an empty
    buffer for the second. *)
Theorem shared_buffer_mixes_two_records :
  let a := ascii_of_nat 97 in
  let b := ascii_of_nat 98 in
  let start := MultiThreaded.MkShared MultiThreaded.free one_sink [] [] in
  let finished := [MultiThreaded.Finished; MultiThreaded.Finished] in
  MultiThreaded.observed
    (MultiThreaded.run untouched [0; 0; 0; 0; 0; 1; 1; 1; 1; 1] [emitter a; emitter b] start)
  = Some (finished, MultiThreaded.free, [[a]; [b]])
  ∧ MultiThreaded.observed
      (MultiThreaded.run untouched [0; 1] [emitter a; emitter b] start)
    = Some ([MultiThreaded.AtCallback [1]; MultiThreaded.AtCallback [1]],
            MultiThreaded.MkMutex 2 false, [])
  ∧ MultiThreaded.observed
      (MultiThreaded.run untouched [0; 1; 0; 1; 0; 0; 1; 1; 0; 1] [emitter a; emitter b] start)
    = Some (finished, MultiThreaded.free, [[a; b]; []]).
Proof. by vm_compute. Qed.
